(** * ICP relay session (session.cpp)

    A shallow embedding of the relay session of the inter-chain
    communication plugin: the send pump, the message dispatch, the per-message
    handlers, the read loop and the coordinator scan for redundant
    connections, followed by the properties of the session that the
    specification states about them.

    Modelling conventions.
    - A member function of [session] is a computation in the monad [M]: it
      takes the session object, returns the updated object and the list of
      operations it started on the websocket and on the application event
      loop, in program order.
    - [fc::time_point] is a number of microseconds, a 64-bit count far from
      its bounds; a handler reads the clock as the argument [now].
    - The serializer [fc::raw], [fc::sha256::hash], the chain id and the block
      header types belong to the host chain; they are fields of the classes
      [HostTypes] and [Codec].
    - Transport operations ([close], [async_write], [post]) do not raise. *)

From Stdlib Require Import ZArith Lia Bool Ascii.
From stdpp Require Import gmap strings list fin_maps.

Open Scope Z_scope.

(** ** Basic data *)

Definition bytes := list Byte.byte.

(** [fc::sha256]: a 256-bit digest; [fc::sha256()] is the all-zero digest. *)
Definition sha256 := Z.
Definition sha256_zero : sha256 := 0.

(** Modelled from the spec: action names are declared outside src/; the
    action surface of the contract names them by these strings. *)
Definition action_name := string.
Definition ACTION_OPENCHANNEL : action_name := "openchannel".
Definition ACTION_ADDBLOCKS : action_name := "addblocks".
Definition ACTION_ADDBLOCK : action_name := "addblock".

Definition account_name := Z.

(** The fields of [action] that the session assigns; the others keep their
    default-constructed value. *)
Record action := { act_name : action_name; act_data : bytes }.

(** The head of the local light client, as the read-only API reports it. *)
Record head := { head_block_num : Z; head_block_id : sha256 }.

(** Block numbers are 32-bit unsigned integers: [head_block_num + 1] wraps
    around. *)
Definition wrap32 (z : Z) : Z := z mod 2 ^ 32.

(** [fc::seconds(3)], in microseconds. *)
Definition three_seconds : Z := 3 * 1000000.

(** ** Host chain types *)

Class HostTypes := {
  block_header_state : Type;
  block_header : Type;
  action_receipt : Type;
  (** [block_header_state::block_num] *)
  block_num : block_header_state -> Z;
  (** [block_header::id()] *)
  header_id : block_header -> sha256;
  (** [block_header::num_from_id] *)
  num_from_id : sha256 -> Z;
  (** [fc::sha256::hash] of a time point *)
  sha256_hash : Z -> sha256;
  (** [chain_plugin::get_chain_id()] *)
  get_chain_id : sha256
}.

Section Messages.
Context `{HT : HostTypes}.

(** Modelled from the spec: the message structs are declared outside src/;
    their fields are those the session reads and writes. *)
Record hello := {
  hello_id : sha256;
  hello_chain_id : sha256;
  hello_contract : account_name;
  hello_peer_contract : account_name
}.

Record ping := { ping_sent : Z; ping_code : sha256; ping_head : head }.

Record pong := { pong_sent : Z; pong_code : sha256 }.

Record channel_seed := { seed : block_header_state }.

Record block_header_with_merkle_path := {
  bhmp_block_header : block_header_state;
  merkle_path : list sha256
}.

Record icp_actions := {
  ia_block_header : block_header;
  peer_actions : list action_name;
  actions : list action;
  action_receipts : list action_receipt;
  action_digests : list sha256
}.

Record icp_action := {
  action_bytes : bytes;
  receipt_bytes : bytes;
  block_id : sha256;
  digests : list sha256
}.

(** The tagged union [icp_message]. *)
Inductive icp_message :=
| msg_hello (m : hello)
| msg_ping (m : ping)
| msg_pong (m : pong)
| msg_channel_seed (m : channel_seed)
| msg_block_header_with_merkle_path (m : block_header_with_merkle_path)
| msg_icp_actions (m : icp_actions).

End Messages.

(** ** The serializer *)

Class Codec `{HT : HostTypes} := {
  pack_message : icp_message -> bytes;
  (** [fc::raw::unpack] on a datastream: the message and [ds.tellp()], or
      [None] when decoding raises *)
  unpack_message : bytes -> option (icp_message * nat);
  pack_block_header_state : block_header_state -> bytes;
  pack_block_header : block_header -> bytes;
  pack_bhmp : block_header_with_merkle_path -> bytes;
  pack_action : action -> bytes;
  pack_action_receipt : action_receipt -> bytes;
  pack_icp_action : icp_action -> bytes
}.

(** ** Sessions, effects and the session monad *)

Inductive session_state := idle_state | sending_state.

Inductive close_code := bad_payload.

(** Modelled from the spec: the relay object is declared outside src/; the
    session reads its id, the two contract names and, through the read-only
    API, the head of the local light client ([None] before the channel is
    opened). *)
Record relay := {
  id_ : sha256;
  local_contract_ : account_name;
  peer_contract_ : account_name;
  get_head : option head
}.

Section Session.
Context `{CD : Codec}.

Record session := {
  session_id_ : Z;
  peer_id_ : sha256;
  in_buffer_ : bytes;
  out_buffer_ : bytes;
  msg_buffer_ : list icp_message;
  state_ : session_state;
  last_sent_ping_ : ping;
  last_recv_ping_ : ping;
  last_recv_ping_time_ : Z;
  recv_remote_hello_ : bool;
  sent_remote_hello_ : bool;
  local_head_ : head
}.

Definition set_peer_id_ (v : sha256) (s : session) : session :=
  {| session_id_ := session_id_ s; peer_id_ := v; in_buffer_ := in_buffer_ s;
     out_buffer_ := out_buffer_ s; msg_buffer_ := msg_buffer_ s; state_ := state_ s;
     last_sent_ping_ := last_sent_ping_ s; last_recv_ping_ := last_recv_ping_ s;
     last_recv_ping_time_ := last_recv_ping_time_ s;
     recv_remote_hello_ := recv_remote_hello_ s;
     sent_remote_hello_ := sent_remote_hello_ s; local_head_ := local_head_ s |}.

Definition set_in_buffer_ (v : bytes) (s : session) : session :=
  {| session_id_ := session_id_ s; peer_id_ := peer_id_ s; in_buffer_ := v;
     out_buffer_ := out_buffer_ s; msg_buffer_ := msg_buffer_ s; state_ := state_ s;
     last_sent_ping_ := last_sent_ping_ s; last_recv_ping_ := last_recv_ping_ s;
     last_recv_ping_time_ := last_recv_ping_time_ s;
     recv_remote_hello_ := recv_remote_hello_ s;
     sent_remote_hello_ := sent_remote_hello_ s; local_head_ := local_head_ s |}.

Definition set_out_buffer_ (v : bytes) (s : session) : session :=
  {| session_id_ := session_id_ s; peer_id_ := peer_id_ s; in_buffer_ := in_buffer_ s;
     out_buffer_ := v; msg_buffer_ := msg_buffer_ s; state_ := state_ s;
     last_sent_ping_ := last_sent_ping_ s; last_recv_ping_ := last_recv_ping_ s;
     last_recv_ping_time_ := last_recv_ping_time_ s;
     recv_remote_hello_ := recv_remote_hello_ s;
     sent_remote_hello_ := sent_remote_hello_ s; local_head_ := local_head_ s |}.

Definition set_msg_buffer_ (v : list icp_message) (s : session) : session :=
  {| session_id_ := session_id_ s; peer_id_ := peer_id_ s; in_buffer_ := in_buffer_ s;
     out_buffer_ := out_buffer_ s; msg_buffer_ := v; state_ := state_ s;
     last_sent_ping_ := last_sent_ping_ s; last_recv_ping_ := last_recv_ping_ s;
     last_recv_ping_time_ := last_recv_ping_time_ s;
     recv_remote_hello_ := recv_remote_hello_ s;
     sent_remote_hello_ := sent_remote_hello_ s; local_head_ := local_head_ s |}.

Definition set_state_ (v : session_state) (s : session) : session :=
  {| session_id_ := session_id_ s; peer_id_ := peer_id_ s; in_buffer_ := in_buffer_ s;
     out_buffer_ := out_buffer_ s; msg_buffer_ := msg_buffer_ s; state_ := v;
     last_sent_ping_ := last_sent_ping_ s; last_recv_ping_ := last_recv_ping_ s;
     last_recv_ping_time_ := last_recv_ping_time_ s;
     recv_remote_hello_ := recv_remote_hello_ s;
     sent_remote_hello_ := sent_remote_hello_ s; local_head_ := local_head_ s |}.

Definition set_last_sent_ping_ (v : ping) (s : session) : session :=
  {| session_id_ := session_id_ s; peer_id_ := peer_id_ s; in_buffer_ := in_buffer_ s;
     out_buffer_ := out_buffer_ s; msg_buffer_ := msg_buffer_ s; state_ := state_ s;
     last_sent_ping_ := v; last_recv_ping_ := last_recv_ping_ s;
     last_recv_ping_time_ := last_recv_ping_time_ s;
     recv_remote_hello_ := recv_remote_hello_ s;
     sent_remote_hello_ := sent_remote_hello_ s; local_head_ := local_head_ s |}.

Definition set_last_recv_ping_ (v : ping) (s : session) : session :=
  {| session_id_ := session_id_ s; peer_id_ := peer_id_ s; in_buffer_ := in_buffer_ s;
     out_buffer_ := out_buffer_ s; msg_buffer_ := msg_buffer_ s; state_ := state_ s;
     last_sent_ping_ := last_sent_ping_ s; last_recv_ping_ := v;
     last_recv_ping_time_ := last_recv_ping_time_ s;
     recv_remote_hello_ := recv_remote_hello_ s;
     sent_remote_hello_ := sent_remote_hello_ s; local_head_ := local_head_ s |}.

Definition set_last_recv_ping_time_ (v : Z) (s : session) : session :=
  {| session_id_ := session_id_ s; peer_id_ := peer_id_ s; in_buffer_ := in_buffer_ s;
     out_buffer_ := out_buffer_ s; msg_buffer_ := msg_buffer_ s; state_ := state_ s;
     last_sent_ping_ := last_sent_ping_ s; last_recv_ping_ := last_recv_ping_ s;
     last_recv_ping_time_ := v;
     recv_remote_hello_ := recv_remote_hello_ s;
     sent_remote_hello_ := sent_remote_hello_ s; local_head_ := local_head_ s |}.

(** [last_recv_ping_.code = fc::sha256()] and its twin for the sent ping *)
Definition reset_code (p : ping) : ping :=
  {| ping_sent := ping_sent p; ping_code := sha256_zero; ping_head := ping_head p |}.

(** Work posted to the application event loop. The closure's captured
    session handle is added where the loop's queue is modelled. *)
Inductive app_task :=
| task_do_read
| task_check_for_redundant_connection
| task_set_peer_head (h : head)
| task_push_transaction (acts : list action).

(** Operations a handler starts on its websocket or on the event loop. *)
Inductive effect :=
| async_write (buf : bytes)
| async_read
| socket_close
| ws_close (code : close_code)
| app_post (t : app_task).

Definition M (A : Type) : Type := session -> A * session * list effect.

Definition ret {A} (a : A) : M A := fun s => (a, s, []).

Definition bind {A B} (m : M A) (k : A -> M B) : M B :=
  fun s => let '(a, s1, e1) := m s in
           let '(b, s2, e2) := k a s1 in (b, s2, e1 ++ e2).

Definition gets {A} (f : session -> A) : M A := fun s => (f s, s, []).
Definition modify (f : session -> session) : M unit := fun s => (tt, f s, []).
Definition emit (e : effect) : M unit := fun s => (tt, s, [e]).

Definition final {A} (r : A * session * list effect) : session := snd (fst r).
Definition effects {A} (r : A * session * list effect) : list effect := snd r.
Definition result {A} (r : A * session * list effect) : A := fst (fst r).

End Session.

Notation "x <- c ;; k" := (bind c (fun x => k))
  (at level 100, c at next level, right associativity).
Notation "c ;; k" := (bind c (fun _ => k))
  (at level 100, right associativity).

(** ** The member functions of [session] *)

Inductive error_code := ec_success | ec_closed | ec_failure.

(** Which vector an unchecked [operator[]] ran off. *)
Inductive vec := vec_actions | vec_action_receipts.

(** A handler either runs to its end or reaches an element access past the
    end of a vector, where its behaviour is undefined. *)
Inductive outcome := completed | out_of_bounds (v : vec) (i : nat).

Section Handlers.
Context `{CD : Codec}.
Variable relay_ : relay.

(** [session::close] and [session::on_error]: both close the socket. *)
Definition close : M unit := emit socket_close.
Definition on_error : M unit := emit socket_close.

(** [session::send()]: mark the session as sending and start the write of
    the out-buffer. *)
Definition send_out_buffer : M unit :=
  modify (set_state_ sending_state) ;;
  buf <- gets out_buffer_ ;;
  emit (async_write buf).

(** [session::send(const icp_message&)] *)
Definition send (msg : icp_message) : M unit :=
  modify (set_out_buffer_ (pack_message msg)) ;;
  send_out_buffer.

(** The hello that [do_hello] builds from the relay. *)
Definition hello_msg : icp_message :=
  msg_hello {| hello_id := id_ relay_;
               hello_chain_id := get_chain_id;
               hello_contract := local_contract_ relay_;
               hello_peer_contract := peer_contract_ relay_ |}.

Definition do_hello : M unit := send hello_msg.

(** [session::do_read] starts a read; [on_read] below is its completion
    handler. *)
Definition do_read : M unit := emit async_read.

Definition wait_on_app : M unit := emit (app_post task_do_read).

Definition send_ping (now : Z) : M bool :=
  sent <- gets (fun s => ping_sent (last_sent_ping_ s)) ;;
  if now - sent <? three_seconds then ret false
  else
    code <- gets (fun s => ping_code (last_sent_ping_ s)) ;;
    (if code =? sha256_zero then
       lh <- gets local_head_ ;;
       let p := {| ping_sent := now; ping_code := sha256_hash now; ping_head := lh |} in
       modify (set_last_sent_ping_ p) ;;
       send (msg_ping p)
     else ret tt) ;;
    ret true.

Definition send_pong (now : Z) : M bool :=
  code <- gets (fun s => ping_code (last_recv_ping_ s)) ;;
  if code =? sha256_zero then ret false
  else
    send (msg_pong {| pong_sent := now; pong_code := code |}) ;;
    modify (fun s => set_last_recv_ping_ (reset_code (last_recv_ping_ s)) s) ;;
    ret true.

Definition buffer_send (msg : icp_message) : M unit :=
  modify (fun s => set_msg_buffer_ (msg_buffer_ s ++ [msg]) s).

Definition is_sending (st : session_state) : bool :=
  match st with sending_state => true | idle_state => false end.

Definition nonempty {A} (l : list A) : bool :=
  match l with [] => false | _ :: _ => true end.

(** Both hellos have been exchanged. *)
Definition operational (s : session) : Prop :=
  recv_remote_hello_ s = true /\ sent_remote_hello_ s = true.

(** The send pump. *)
Definition maybe_send_next_message (now : Z) : M unit :=
  st <- gets state_ ;;
  if is_sending st then ret tt
  else
    out <- gets out_buffer_ ;;
    if nonempty out then ret tt
    else
      rh <- gets recv_remote_hello_ ;;
      sh <- gets sent_remote_hello_ ;;
      if negb rh || negb sh then ret tt
      else
        ponged <- send_pong now ;;
        if ponged then ret tt
        else
          pinged <- send_ping now ;;
          if pinged then ret tt
          else
            queue <- gets msg_buffer_ ;;
            match queue with
            | [] => ret tt
            | msg :: rest => send msg ;; modify (set_msg_buffer_ rest)
            end.

Definition check_for_redundant_connection : M unit :=
  emit (app_post task_check_for_redundant_connection).

Definition on_hello (hi : hello) : M unit :=
  if negb (hello_chain_id hi =? get_chain_id) then close
  else if hello_id hi =? id_ relay_ then close
  else
    modify (set_peer_id_ (hello_id hi)) ;;
    check_for_redundant_connection.

Definition on_ping (now : Z) (p : ping) : M unit :=
  modify (set_last_recv_ping_ p) ;;
  modify (set_last_recv_ping_time_ now) ;;
  emit (app_post (task_set_peer_head (ping_head p))).

Definition on_pong (p : pong) : M unit :=
  code <- gets (fun s => ping_code (last_sent_ping_ s)) ;;
  if negb (pong_code p =? code) then close
  else modify (fun s => set_last_sent_ping_ (reset_code (last_sent_ping_ s)) s).

Definition on_channel_seed (cs : channel_seed) : M unit :=
  let data := pack_block_header_state (seed cs) in
  emit (app_post (task_push_transaction
                    [ {| act_name := ACTION_OPENCHANNEL; act_data := data |} ])).

Definition first_num (b : block_header_with_merkle_path) : Z :=
  match merkle_path b with
  | [] => block_num (bhmp_block_header b)
  | id :: _ => num_from_id id
  end.

Definition on_block_header_with_merkle_path (b : block_header_with_merkle_path) : M unit :=
  match get_head relay_ with
  | None => ret tt
  | Some h =>
      if negb (first_num b =? wrap32 (head_block_num h + 1)) then ret tt
      else
        let data := pack_bhmp b in
        emit (app_post (task_push_transaction
                          [ {| act_name := ACTION_ADDBLOCKS; act_data := data |} ]))
  end.

(** The loop of [on(const icp_actions&)] from index [i] on; [rest] is what
    remains of [peer_actions] from [i]. The two element accesses are not
    checked: past the end of a vector the loop stops with [out_of_bounds]. *)
Fixpoint push_peer_actions (ia : icp_actions) (bid : sha256) (i : nat)
    (rest : list action_name) : M outcome :=
  match rest with
  | [] => ret completed
  | nm :: rest' =>
      match (actions ia : list action) !! i with
      | None => ret (out_of_bounds vec_actions i)
      | Some a_i =>
          match (action_receipts ia : list action_receipt) !! i with
          | None => ret (out_of_bounds vec_action_receipts i)
          | Some r_i =>
              let a := {| act_name := nm;
                          act_data := pack_icp_action
                            {| action_bytes := pack_action a_i;
                               receipt_bytes := pack_action_receipt r_i;
                               block_id := bid;
                               digests := action_digests ia |} |} in
              emit (app_post (task_push_transaction [a])) ;;
              push_peer_actions ia bid (S i) rest'
          end
      end
  end.

Definition on_icp_actions (ia : icp_actions) : M outcome :=
  let bid := header_id (ia_block_header ia) in
  let data := pack_block_header (ia_block_header ia) in
  emit (app_post (task_push_transaction
                    [ {| act_name := ACTION_ADDBLOCK; act_data := data |} ])) ;;
  push_peer_actions ia bid 0%nat (peer_actions ia).

(** The actions of the transactions the handlers push. *)
Definition addblocks_action (b : block_header_with_merkle_path) : action :=
  {| act_name := ACTION_ADDBLOCKS; act_data := pack_bhmp b |}.

Definition addblock_action (ia : icp_actions) : action :=
  {| act_name := ACTION_ADDBLOCK;
     act_data := pack_block_header (ia_block_header ia) |}.

(** The transaction pushed for index [i] of an [icp_actions] message. *)
Definition peer_transaction (ia : icp_actions) (nm : action_name)
    (a_i : action) (r_i : action_receipt) : list action :=
  [ {| act_name := nm;
       act_data := pack_icp_action
         {| action_bytes := pack_action a_i;
            receipt_bytes := pack_action_receipt r_i;
            block_id := header_id (ia_block_header ia);
            digests := action_digests ia |} |} ].

(** The tags for which the [switch] of [on_message] has a case. *)
Definition has_case (msg : icp_message) : bool :=
  match msg with
  | msg_hello _ | msg_ping _ | msg_pong _ => true
  | _ => false
  end.

(** The dispatch. Its [switch] has a case for three of the six tags. *)
Definition on_message (now : Z) (msg : icp_message) : M unit :=
  match msg with
  | msg_hello m => on_hello m ;; maybe_send_next_message now
  | msg_ping m => on_ping now m ;; maybe_send_next_message now
  | msg_pong m => on_pong m ;; maybe_send_next_message now
  | _ => emit (ws_close bad_payload)
  end.

(** Completion handler of the read started by [do_read]; the frame is
    already in the in-buffer. *)
Definition on_read (now : Z) (ec : error_code) : M unit :=
  match ec with
  | ec_success =>
      buf <- gets in_buffer_ ;;
      match unpack_message buf with
      | Some (msg, n) =>
          on_message now msg ;;
          modify (fun s => set_in_buffer_ (drop n (in_buffer_ s)) s) ;;
          wait_on_app
      | None => emit (ws_close bad_payload)
      end
  | _ => on_error
  end.

(** Completion handler of the write started by [send_out_buffer]. *)
Definition on_write (now : Z) (ec : error_code) : M unit :=
  match ec with
  | ec_success =>
      modify (set_state_ idle_state) ;;
      modify (set_out_buffer_ []) ;;
      maybe_send_next_message now
  | _ => emit socket_close ;; on_error
  end.

End Handlers.

(** ** A session with its websocket *)

Section Connection.
Context `{CD : Codec}.
Variable relay_ : relay.

(** The session object together with the state of its transport: whether
    the socket is open, the close code sent on the websocket if any, and the
    numbers of writes and reads started and not yet completed. *)
Record conn := {
  sess : session;
  socket_open : bool;
  ws_closed : option close_code;
  writes_in_flight : nat;
  reads_in_flight : nat
}.

Definition set_sess (v : session) (c : conn) : conn :=
  {| sess := v; socket_open := socket_open c; ws_closed := ws_closed c;
     writes_in_flight := writes_in_flight c; reads_in_flight := reads_in_flight c |}.

Definition close_socket (c : conn) : conn :=
  {| sess := sess c; socket_open := false; ws_closed := ws_closed c;
     writes_in_flight := writes_in_flight c; reads_in_flight := reads_in_flight c |}.

Definition apply_effect (c : conn) (e : effect) : conn :=
  match e with
  | async_write _ =>
      {| sess := sess c; socket_open := socket_open c; ws_closed := ws_closed c;
         writes_in_flight := S (writes_in_flight c);
         reads_in_flight := reads_in_flight c |}
  | async_read =>
      {| sess := sess c; socket_open := socket_open c; ws_closed := ws_closed c;
         writes_in_flight := writes_in_flight c;
         reads_in_flight := S (reads_in_flight c) |}
  | socket_close => close_socket c
  | ws_close code =>
      {| sess := sess c; socket_open := socket_open c; ws_closed := Some code;
         writes_in_flight := writes_in_flight c;
         reads_in_flight := reads_in_flight c |}
  | app_post _ => c
  end.

Definition apply_effects (es : list effect) (c : conn) : conn :=
  foldl apply_effect c es.

(** Run a member function on the session of a connection. *)
Definition run {A} (m : M A) (c : conn) : conn :=
  let r := m (sess c) in apply_effects (effects r) (set_sess (final r) c).

(** The tasks a list of effects posts to the application event loop. *)
Definition posted (es : list effect) : list app_task :=
  omap (fun e => match e with app_post t => Some t | _ => None end) es.

(** The writes a list of effects starts. *)
Definition writes (es : list effect) : list bytes :=
  omap (fun e => match e with async_write b => Some b | _ => None end) es.

(** The transactions a list of effects pushes, in order. *)
Definition pushed (es : list effect) : list (list action) :=
  omap (fun e => match e with
                 | app_post (task_push_transaction acts) => Some acts
                 | _ => None
                 end) es.

(** Does a list of effects close the socket or the websocket? *)
Definition closes (es : list effect) : bool :=
  existsb (fun e => match e with socket_close | ws_close _ => true | _ => false end) es.

(** *** The life of one connection *)

Inductive event :=
| ev_read (now : Z) (ec : error_code) (frame : bytes)
| ev_write (now : Z) (ec : error_code)
| ev_app_do_read
| ev_buffer_send (msg : icp_message)
| ev_pump (now : Z).

(** The member function an event runs on the strand. A completed read has
    put its frame in the in-buffer. Besides the completion handlers and the
    re-armed read there are the two calls the relay makes through
    [session::post]: queueing a message and running the pump. *)
Definition handler (e : event) : M unit :=
  match e with
  | ev_read now ec frame =>
      match ec with
      | ec_success => modify (fun s => set_in_buffer_ (in_buffer_ s ++ frame) s)
      | _ => ret tt
      end ;;
      on_read relay_ now ec
  | ev_write now ec => on_write now ec
  | ev_app_do_read => do_read
  | ev_buffer_send msg => buffer_send msg
  | ev_pump now => maybe_send_next_message now
  end.

(** The call of [maybe_send_next_message] that the handler of an event
    makes: the time and the session object at the call, or [None] when the
    handler does not call the pump. A completed read calls it after the
    handler of a hello, a ping or a pong; a completed write after it has set
    the state to idle and emptied the out-buffer. *)
Definition pump_call (e : event) (s : session) : option (Z * session) :=
  match e with
  | ev_read now ec_success frame =>
      let s1 := set_in_buffer_ (in_buffer_ s ++ frame) s in
      match unpack_message (in_buffer_ s1) with
      | Some (msg_hello hi, _) => Some (now, final (on_hello relay_ hi s1))
      | Some (msg_ping p, _) => Some (now, final (on_ping now p s1))
      | Some (msg_pong p, _) => Some (now, final (on_pong p s1))
      | _ => None
      end
  | ev_write now ec_success =>
      Some (now, set_out_buffer_ [] (set_state_ idle_state s))
  | ev_pump now => Some (now, s)
  | _ => None
  end.

Definition complete_write (c : conn) : conn :=
  {| sess := sess c; socket_open := socket_open c; ws_closed := ws_closed c;
     writes_in_flight := pred (writes_in_flight c);
     reads_in_flight := reads_in_flight c |}.

Definition complete_read (c : conn) : conn :=
  {| sess := sess c; socket_open := socket_open c; ws_closed := ws_closed c;
     writes_in_flight := writes_in_flight c;
     reads_in_flight := pred (reads_in_flight c) |}.

(** One step: a completion handler runs only for an operation in flight. *)
Definition step (e : event) (c : conn) : option conn :=
  match e with
  | ev_read _ _ _ =>
      if (0 <? reads_in_flight c)%nat then Some (run (handler e) (complete_read c))
      else None
  | ev_write _ _ =>
      if (0 <? writes_in_flight c)%nat then Some (run (handler e) (complete_write c))
      else None
  | _ => Some (run (handler e) c)
  end.

(** The accept (or handshake) completion: [do_hello(); do_read();]. *)
Definition start : M unit := do_hello relay_ ;; do_read.

(** A newly constructed session: nothing started on its websocket. *)
Definition fresh (c : conn) : Prop :=
  writes_in_flight c = 0%nat /\ reads_in_flight c = 0%nat.

Inductive reachable : conn -> Prop :=
| reachable_start c : fresh c -> reachable (run start c)
| reachable_step c e c' : reachable c -> step e c = Some c' -> reachable c'.

(** The invariant of the write path. *)
Definition write_invariant (c : conn) : Prop :=
  (writes_in_flight c <= 1)%nat /\
  (writes_in_flight c = 1%nat -> state_ (sess c) = sending_state).

End Connection.

(** ** The coordinator's registry of sessions *)

Section Registry.
Context `{CD : Codec}.

(** Modelled from the spec: [relay::for_each_session] is declared outside
    src/; it applies the function to every registered session. Sessions are
    shared objects: the registry maps a session handle to the object, and the
    function reads and updates the objects through the registry. *)
Definition for_each_session (fn : Z -> gmap Z conn -> gmap Z conn)
    (reg : gmap Z conn) : gmap Z conn :=
  foldr fn reg (elements (dom reg)).

(** The body of the lambda of [check_for_redundant_connection], applied to
    the session [s] for the captured handle [self]. *)
Definition redundant_check (self s : Z) (reg : gmap Z conn) : gmap Z conn :=
  match reg !! s, reg !! self with
  | Some cs, Some cself =>
      if bool_decide (s ≠ self) && (peer_id_ (sess cs) =? peer_id_ (sess cself))
      then alter close_socket self reg
      else reg
  | _, _ => reg
  end.

(** The task posted by [check_for_redundant_connection], run by the
    application event loop. *)
Definition run_check_for_redundant_connection (self : Z)
    (reg : gmap Z conn) : gmap Z conn :=
  for_each_session (redundant_check self) reg.

(** A member function runs on the registered session [self]; the tasks it
    posts are returned. *)
Definition run_on (self : Z) (m : M unit) (reg : gmap Z conn)
    : gmap Z conn * list app_task :=
  match reg !! self with
  | Some c => (<[self := run m c]> reg, posted (effects (m (sess c))))
  | None => (reg, [])
  end.

(** The application event loop runs a task posted by session [self]. Only
    the scan for redundant connections touches the registry. *)
Definition run_task (self : Z) (t : app_task) (reg : gmap Z conn) : gmap Z conn :=
  match t with
  | task_check_for_redundant_connection => run_check_for_redundant_connection self reg
  | _ => reg
  end.

Definition run_tasks (self : Z) (ts : list app_task) (reg : gmap Z conn)
    : gmap Z conn :=
  foldl (fun acc t => run_task self t acc) reg ts.

(** A hello arrives on session [self]; then the event loop runs what the
    handler posted. *)
Definition receive_hello (relay_ : relay) (self : Z) (hi : hello)
    (reg : gmap Z conn) : gmap Z conn :=
  let '(reg1, ts) := run_on self (on_hello relay_ hi) reg in
  run_tasks self ts reg1.

Definition is_open (reg : gmap Z conn) (k : Z) : bool :=
  match reg !! k with Some c => socket_open c | None => false end.

Definition peer_of (reg : gmap Z conn) (k : Z) : option sha256 :=
  peer_id_ ∘ sess <$> reg !! k.

(** The test of the scan's lambda for the session [k]. *)
Definition redundant_with (self : Z) (reg : gmap Z conn) (k : Z) : bool :=
  match reg !! k, reg !! self with
  | Some ck, Some cself =>
      bool_decide (k ≠ self) && (peer_id_ (sess ck) =? peer_id_ (sess cself))
  | _, _ => false
  end.

(** Another registered session has the peer id of [self]. *)
Definition has_twin (self : Z) (reg : gmap Z conn) : Prop :=
  exists k ck cself,
    k <> self /\ reg !! k = Some ck /\ reg !! self = Some cself /\
    peer_id_ (sess ck) = peer_id_ (sess cself).

End Registry.

(** ** Construction of a session *)

(** [std::string::npos], and the wrap-around of [size_t]. *)
Definition npos : Z := 2 ^ 64 - 1.
Definition wrap64 (z : Z) : Z := z mod 2 ^ 64.

Definition str_size (s : string) : Z := Z.of_nat (String.length s).

(** The index of the first occurrence of a character. *)
Fixpoint find_char (ch : ascii) (s : string) : option nat :=
  match s with
  | EmptyString => None
  | String c s' => if Ascii.eqb c ch then Some 0%nat else S <$> find_char ch s'
  end.

(** [std::string::find(char)] *)
Definition str_find (ch : ascii) (s : string) : Z :=
  match find_char ch s with
  | Some i => Z.of_nat i
  | None => npos
  end.

(** [std::string::substr(pos, n)]: it raises [out_of_range] when [pos] is
    past the end, and stops at the end of the string. *)
Definition substr (s : string) (pos n : Z) : option string :=
  if str_size s <? pos then None
  else Some (String.substring (Z.to_nat pos)
               (Z.to_nat (Z.min n (str_size s - pos))) s).

(** What the constructor of an outgoing session keeps of its peer. *)
Record endpoint := {
  peer_ : string;
  remote_host_ : string;
  remote_port_ : string
}.

(** The constructor of an outgoing session, on the string ["host:port"];
    [None] when a [substr] raises. *)
Definition outgoing_endpoint (peer : string) : option endpoint :=
  let c := str_find ":"%char peer in
  match substr peer 0 c with
  | None => None
  | Some host =>
      match substr peer (wrap64 (c + 1)) (str_size peer) with
      | None => None
      | Some port =>
          Some {| peer_ := peer; remote_host_ := host; remote_port_ := port |}
      end
  end.

(** [INT_MAX] *)
Definition int_max : Z := 2 ^ 31 - 1.

(** [session::next_session_id] on the static counter [session_count]: the
    id and the new counter; [None] when [++session_count] overflows [int]. *)
Definition next_session_id (session_count : Z) : option (Z * Z) :=
  if session_count <? int_max
  then Some (session_count + 1, session_count + 1)
  else None.

(** [n] sessions constructed one after the other: their ids in order of
    construction, and the counter afterwards. *)
Fixpoint construct_sessions (n : nat) (session_count : Z) : option (list Z * Z) :=
  match n with
  | O => Some ([], session_count)
  | S n' =>
      match next_session_id session_count with
      | None => None
      | Some (id, count1) =>
          match construct_sessions n' count1 with
          | None => None
          | Some (ids, count2) => Some (id :: ids, count2)
          end
      end
  end.

(** ** Runs of a connection *)

Section Runs.
Context `{CD : Codec}.
Variable relay_ : relay.

(** The events of a list, one after the other; [None] when a completion
    handler would run with nothing in flight. *)
Fixpoint run_events (es : list event) (c : conn) : option conn :=
  match es with
  | [] => Some c
  | e :: es' =>
      match step relay_ e c with
      | Some c' => run_events es' c'
      | None => None
      end
  end.

(** The reads a list of effects starts, and the reads it posts to the
    application event loop. *)
Definition reads (es : list effect) : list unit :=
  omap (fun e => match e with async_read => Some tt | _ => None end) es.

Definition read_posts (es : list effect) : list unit :=
  omap (fun e => match e with app_post task_do_read => Some tt | _ => None end) es.

(** A connection together with the number of [do_read] tasks waiting in the
    queue of the application event loop. *)
Record loop := { loop_conn : conn; waiting_reads : nat }.

(** One step of the read loop: the posted [do_read] runs only if one waits
    in the queue; every handler adds the tasks it posts. *)
Definition loop_step (e : event) (l : loop) : option loop :=
  let n := length (read_posts (effects (handler relay_ e (sess (loop_conn l))))) in
  match e with
  | ev_app_do_read =>
      if (0 <? waiting_reads l)%nat then
        match step relay_ e (loop_conn l) with
        | Some c' =>
            Some {| loop_conn := c';
                    waiting_reads := (Nat.pred (waiting_reads l) + n)%nat |}
        | None => None
        end
      else None
  | _ =>
      match step relay_ e (loop_conn l) with
      | Some c' =>
          Some {| loop_conn := c'; waiting_reads := (waiting_reads l + n)%nat |}
      | None => None
      end
  end.

Fixpoint loop_run (es : list event) (l : loop) : option loop :=
  match es with
  | [] => Some l
  | e :: es' =>
      match loop_step e l with
      | Some l' => loop_run es' l'
      | None => None
      end
  end.

(** The accept (or handshake) completion on a new session: no [do_read]
    waits in the queue. *)
Definition loop_start (c : conn) : loop :=
  {| loop_conn := run (start relay_) c; waiting_reads := 0 |}.

(** The state of a session whose write has failed. *)
Definition write_dead (c : conn) : Prop :=
  writes_in_flight c = 0%nat /\ socket_open c = false /\
  state_ (sess c) = sending_state.

(** At most one read is outstanding. *)
Definition loop_invariant (l : loop) : Prop :=
  (reads_in_flight (loop_conn l) + waiting_reads l <= 1)%nat.

(** The relay queues the messages of a list, in order. *)
Fixpoint buffer_all (ms : list icp_message) : M unit :=
  match ms with
  | [] => ret tt
  | m :: ms' => buffer_send m ;; buffer_all ms'
  end.

(** Successful write completions, one for each time of the list. *)
Fixpoint write_completions (nows : list Z) : M unit :=
  match nows with
  | [] => ret tt
  | now :: nows' => on_write now ec_success ;; write_completions nows'
  end.

(** No received ping awaits its pong and the last ping was sent less than
    three seconds before each of the times: the pump has only the queue to
    serve. *)
Definition quiet (nows : list Z) (s : session) : Prop :=
  operational s /\
  ping_code (last_recv_ping_ s) = sha256_zero /\
  Forall (fun now => now - ping_sent (last_sent_ping_ s) < three_seconds) nows.

End Runs.

(** ** A small host chain, to run the session on concrete inputs *)

Definition byte_val (b : Byte.byte) : Z := Z.of_N (Byte.to_N b).

(** Block header states and headers are their number and their id; the
    block number of an id is its top 32 bits. *)
Definition toy_types : HostTypes :=
  {| block_header_state := Z;
     block_header := sha256;
     action_receipt := bytes;
     block_num := fun n => n;
     header_id := fun i => i;
     num_from_id := fun i => Z.shiftr i 224;
     sha256_hash := fun t => Z.succ (Z.abs t);
     get_chain_id := 7 |}.

(** One tag byte, then for a pong its code and for a channel seed its seed,
    one byte each; the other variants carry no payload here. An empty or
    truncated frame does not decode. *)
Definition toy_pack_message (m : icp_message (HT := toy_types)) : bytes :=
  match m with
  | msg_hello _ => [Byte.x00]
  | msg_ping _ => [Byte.x01]
  | msg_pong p =>
      [Byte.x02; default Byte.x00 (Byte.of_N (Z.to_N (pong_code p)))]
  | msg_channel_seed cs =>
      [Byte.x03; default Byte.x00 (Byte.of_N (Z.to_N (seed cs)))]
  | msg_block_header_with_merkle_path _ => [Byte.x04]
  | msg_icp_actions _ => [Byte.x05]
  end.

Definition toy_unpack_message (buf : bytes)
    : option (icp_message (HT := toy_types) * nat) :=
  match buf with
  | Byte.x02 :: b :: _ =>
      Some (msg_pong {| pong_sent := 0; pong_code := byte_val b |}, 2%nat)
  | Byte.x03 :: b :: _ =>
      Some (msg_channel_seed (@Build_channel_seed toy_types (byte_val b)), 2%nat)
  | _ => None
  end.

Definition toy_codec : Codec (HT := toy_types) :=
  {| pack_message := toy_pack_message;
     unpack_message := toy_unpack_message;
     pack_block_header_state := fun n : Z => [default Byte.x00 (Byte.of_N (Z.to_N n))];
     pack_block_header := fun i : Z => [default Byte.x00 (Byte.of_N (Z.to_N i))];
     pack_bhmp := fun _ => [Byte.x04];
     pack_action := fun a => act_data a;
     pack_action_receipt := fun r : bytes => r;
     pack_icp_action := fun a => action_bytes a ++ receipt_bytes a |}.

Definition toy_relay : relay :=
  {| id_ := 1; local_contract_ := 10; peer_contract_ := 20;
     get_head := Some {| head_block_num := 100; head_block_id := 0 |} |}.

Definition no_ping : ping :=
  {| ping_sent := 0; ping_code := sha256_zero;
     ping_head := {| head_block_num := 0; head_block_id := 0 |} |}.

(** A session on which nothing has happened yet; [hellos] sets both hello
    flags. *)
Definition blank_session (id : Z) (hellos : bool) : session (HT := toy_types) :=
  {| session_id_ := id; peer_id_ := 0; in_buffer_ := []; out_buffer_ := [];
     msg_buffer_ := []; state_ := idle_state;
     last_sent_ping_ := no_ping; last_recv_ping_ := no_ping;
     last_recv_ping_time_ := 0;
     recv_remote_hello_ := hellos; sent_remote_hello_ := hellos;
     local_head_ := {| head_block_num := 100; head_block_id := 0 |} |}.

Definition blank_conn (id : Z) (hellos : bool) : conn (HT := toy_types) :=
  {| sess := blank_session id hellos; socket_open := true; ws_closed := None;
     writes_in_flight := 0; reads_in_flight := 0 |}.

(** *** Concrete inputs *)

Definition queued_hello : icp_message (HT := toy_types) :=
  msg_hello {| hello_id := 2; hello_chain_id := 7;
               hello_contract := 10; hello_peer_contract := 20 |}.

Definition unanswered_ping : ping :=
  {| ping_sent := 0; ping_code := 5;
     ping_head := {| head_block_num := 100; head_block_id := 0 |} |}.

Definition pong_5 : pong := {| pong_sent := 0; pong_code := 5 |}.
Definition pong_6 : pong := {| pong_sent := 0; pong_code := 6 |}.

Definition seed_3 : icp_message (HT := toy_types) :=
  msg_channel_seed (@Build_channel_seed toy_types 3).

(** The batch that extends the head of [toy_relay], block 100. *)
Definition next_batch : block_header_with_merkle_path (HT := toy_types) :=
  @Build_block_header_with_merkle_path toy_types 101 [].

(** One peer action and no action: the handler posts the [addblock]
    transaction and then reads [actions[0]] past the end. *)
Definition misaligned : icp_actions (HT := toy_types) :=
  @Build_icp_actions toy_types 77 ["onpacket"%string] [] [] [].

(** Two registered sessions: session 1 has had its hello from peer 9;
    session 2 has not had a hello yet. *)
Definition two_sessions : gmap Z (conn (HT := toy_types)) :=
  <[1 := set_sess (set_peer_id_ 9 (blank_session 1 false)) (blank_conn 1 false)]>
    (<[2 := blank_conn 2 false]> ∅).

Definition hello_from_9 : hello :=
  {| hello_id := 9; hello_chain_id := 7;
     hello_contract := 20; hello_peer_contract := 10 |}.

(** A hello that carries the id of [toy_relay] itself. *)
Definition hello_from_self : hello :=
  {| hello_id := 1; hello_chain_id := 7;
     hello_contract := 10; hello_peer_contract := 20 |}.

(** Two registered sessions that both had the hello of peer 9. *)
Definition twin_sessions : gmap Z (conn (HT := toy_types)) :=
  <[1 := set_sess (set_peer_id_ 9 (blank_session 1 false)) (blank_conn 1 false)]>
    (<[2 := set_sess (set_peer_id_ 9 (blank_session 2 false)) (blank_conn 2 false)]> ∅).

(** A batch whose header state is of block 101 and whose merkle path starts
    with an id of block 7. *)
Definition stale_path_batch : block_header_with_merkle_path (HT := toy_types) :=
  @Build_block_header_with_merkle_path toy_types 101 [Z.shiftl 7 224].

(** One peer action, with its action and its receipt. *)
Definition aligned : icp_actions (HT := toy_types) :=
  @Build_icp_actions toy_types 77 ["onpacket"%string]
    [ {| act_name := "transfer"; act_data := [Byte.x01] |} ] [[Byte.x02]] [].

(** ** Properties *)

Section PumpProperties.
Context `{CD : Codec}.

Lemma send_spec msg s :
  send msg s =
    (tt, set_state_ sending_state (set_out_buffer_ (pack_message msg) s),
     [async_write (pack_message msg)]).
Proof. reflexivity. Qed.

Lemma send_pong_spec now s :
  send_pong now s =
    if ping_code (last_recv_ping_ s) =? sha256_zero then (false, s, [])
    else
      let m := msg_pong {| pong_sent := now; pong_code := ping_code (last_recv_ping_ s) |} in
      (true,
       set_last_recv_ping_ (reset_code (last_recv_ping_ s))
         (set_state_ sending_state (set_out_buffer_ (pack_message m) s)),
       [async_write (pack_message m)]).
Proof.
  unfold send_pong, bind, gets. cbn.
  destruct (ping_code (last_recv_ping_ s) =? sha256_zero); reflexivity.
Qed.

Lemma send_ping_spec now s :
  send_ping now s =
    if now - ping_sent (last_sent_ping_ s) <? three_seconds then (false, s, [])
    else if ping_code (last_sent_ping_ s) =? sha256_zero then
      let p := {| ping_sent := now; ping_code := sha256_hash now;
                  ping_head := local_head_ s |} in
      (true,
       set_state_ sending_state
         (set_out_buffer_ (pack_message (msg_ping p)) (set_last_sent_ping_ p s)),
       [async_write (pack_message (msg_ping p))])
    else (true, s, []).
Proof.
  unfold send_ping, bind, gets. cbn.
  destruct (now - ping_sent (last_sent_ping_ s) <? three_seconds); [reflexivity|].
  destruct (ping_code (last_sent_ping_ s) =? sha256_zero); reflexivity.
Qed.

(** The pump, case by case. *)
Lemma pump_spec now s :
  maybe_send_next_message now s =
    if is_sending (state_ s) then (tt, s, [])
    else if nonempty (out_buffer_ s) then (tt, s, [])
    else if negb (recv_remote_hello_ s) || negb (sent_remote_hello_ s) then (tt, s, [])
    else if negb (ping_code (last_recv_ping_ s) =? sha256_zero) then
      let m := msg_pong {| pong_sent := now; pong_code := ping_code (last_recv_ping_ s) |} in
      (tt,
       set_last_recv_ping_ (reset_code (last_recv_ping_ s))
         (set_state_ sending_state (set_out_buffer_ (pack_message m) s)),
       [async_write (pack_message m)])
    else if negb (now - ping_sent (last_sent_ping_ s) <? three_seconds) then
      if ping_code (last_sent_ping_ s) =? sha256_zero then
        let p := {| ping_sent := now; ping_code := sha256_hash now;
                    ping_head := local_head_ s |} in
        (tt,
         set_state_ sending_state
           (set_out_buffer_ (pack_message (msg_ping p)) (set_last_sent_ping_ p s)),
         [async_write (pack_message (msg_ping p))])
      else (tt, s, [])
    else
      match msg_buffer_ s with
      | [] => (tt, s, [])
      | msg :: rest =>
          (tt,
           set_msg_buffer_ rest
             (set_state_ sending_state (set_out_buffer_ (pack_message msg) s)),
           [async_write (pack_message msg)])
      end.
Proof.
  unfold maybe_send_next_message.
  unfold bind at 1. unfold gets at 1.
  destruct (is_sending (state_ s)); [reflexivity|].
  unfold bind at 1. unfold gets at 1.
  destruct (nonempty (out_buffer_ s)); [reflexivity|].
  unfold bind at 1. unfold gets at 1. unfold bind at 1. unfold gets at 1.
  destruct (negb (recv_remote_hello_ s) || negb (sent_remote_hello_ s)); [reflexivity|].
  unfold bind at 1. rewrite send_pong_spec.
  destruct (ping_code (last_recv_ping_ s) =? sha256_zero); [|reflexivity].
  unfold bind at 1. rewrite send_ping_spec.
  destruct (now - ping_sent (last_sent_ping_ s) <? three_seconds); cbn [negb].
  - destruct (msg_buffer_ s) eqn:Hq; unfold bind, gets; cbn; rewrite Hq; reflexivity.
  - destruct (ping_code (last_sent_ping_ s) =? sha256_zero); reflexivity.
Qed.

(** Whatever the state, one invocation of the pump starts at most one
    write, and starts nothing but writes. *)
Lemma pump_effects now s :
  effects (maybe_send_next_message now s) = [] \/
  exists buf, effects (maybe_send_next_message now s) = [async_write buf].
Proof.
  rewrite pump_spec.
  destruct (is_sending (state_ s)); [now left|].
  destruct (nonempty (out_buffer_ s)); [now left|].
  destruct (negb (recv_remote_hello_ s) || negb (sent_remote_hello_ s)); [now left|].
  destruct (negb (ping_code (last_recv_ping_ s) =? sha256_zero)); [cbn; eauto|].
  destruct (negb (now - ping_sent (last_sent_ping_ s) <? three_seconds)).
  - destruct (ping_code (last_sent_ping_ s) =? sha256_zero); cbn; eauto.
  - destruct (msg_buffer_ s); cbn; eauto.
Qed.

Lemma pump_at_most_one_write now s :
  (length (writes (effects (maybe_send_next_message now s))) <= 1)%nat.
Proof.
  destruct (pump_effects now s) as [-> | [buf ->]]; cbn; lia.
Qed.

(** While a write is in progress the pump does nothing. *)
Lemma pump_gate now s :
  state_ s = sending_state \/ out_buffer_ s <> [] ->
  maybe_send_next_message now s = (tt, s, []).
Proof.
  intros [Hst | Hout]; rewrite pump_spec.
  - rewrite Hst. reflexivity.
  - destruct (is_sending (state_ s)); [reflexivity|].
    destruct (out_buffer_ s); [congruence | reflexivity].
Qed.

(** A pump that starts a write leaves the session in [sending_state]; one
    that starts none leaves the session as it was. *)
Lemma pump_state now s :
  match writes (effects (maybe_send_next_message now s)) with
  | [] => final (maybe_send_next_message now s) = s
  | _ :: _ => state_ (final (maybe_send_next_message now s)) = sending_state
  end.
Proof.
  rewrite pump_spec.
  destruct (is_sending (state_ s)); [reflexivity|].
  destruct (nonempty (out_buffer_ s)); [reflexivity|].
  destruct (negb (recv_remote_hello_ s) || negb (sent_remote_hello_ s)); [reflexivity|].
  destruct (negb (ping_code (last_recv_ping_ s) =? sha256_zero)); [reflexivity|].
  destruct (negb (now - ping_sent (last_sent_ping_ s) <? three_seconds)).
  - destruct (ping_code (last_sent_ping_ s) =? sha256_zero); reflexivity.
  - destruct (msg_buffer_ s); reflexivity.
Qed.

(** C1 (as amended). With both hellos exchanged, the session idle and the
    out-buffer empty, one invocation of the send pump starts at most one
    write: (1) a pong and nothing else when a received ping is unanswered;
    (2) otherwise a new ping and nothing else when no ping is in flight and
    at least three seconds have passed since the last ping was sent;
    (3) otherwise, when fewer than three seconds have passed since the last
    ping was sent and the queue is not empty, the message at the front of the
    queue, which is removed from the queue. *)
Theorem pump_priority now s :
  operational s -> state_ s = idle_state -> out_buffer_ s = [] ->
  let r := maybe_send_next_message now s in
  (length (writes (effects r)) <= 1)%nat /\
  (ping_code (last_recv_ping_ s) <> sha256_zero ->
     effects r =
       [async_write (pack_message
          (msg_pong {| pong_sent := now;
                       pong_code := ping_code (last_recv_ping_ s) |}))] /\
     msg_buffer_ (final r) = msg_buffer_ s) /\
  (ping_code (last_recv_ping_ s) = sha256_zero ->
   ping_code (last_sent_ping_ s) = sha256_zero ->
   three_seconds <= now - ping_sent (last_sent_ping_ s) ->
     effects r =
       [async_write (pack_message
          (msg_ping {| ping_sent := now; ping_code := sha256_hash now;
                       ping_head := local_head_ s |}))] /\
     msg_buffer_ (final r) = msg_buffer_ s) /\
  (ping_code (last_recv_ping_ s) = sha256_zero ->
   now - ping_sent (last_sent_ping_ s) < three_seconds ->
   forall msg rest, msg_buffer_ s = msg :: rest ->
     effects r = [async_write (pack_message msg)] /\
     msg_buffer_ (final r) = rest).
Proof.
  intros [Hr Hs] Hst Hout r.
  split; [apply pump_at_most_one_write|].
  subst r. rewrite pump_spec, Hst, Hout, Hr, Hs. cbn [is_sending nonempty negb orb].
  split; [|split].
  - intros Hc. apply Z.eqb_neq in Hc. rewrite Hc. split; reflexivity.
  - intros H H0 H1.
    apply Z.eqb_eq in H. apply Z.eqb_eq in H0. apply Z.ltb_ge in H1.
    rewrite H, H1, H0. split; reflexivity.
  - intros H H0 msg rest H1.
    apply Z.eqb_eq in H. apply Z.ltb_lt in H0.
    rewrite H, H0, H1. split; reflexivity.
Qed.

End PumpProperties.

(** An operational, idle session with one queued message, one second after
    its last ping: the pump sends the queued message. *)
Lemma pump_priority_witness :
  let s := set_msg_buffer_ [queued_hello] (blank_session 1 true) in
  let r := maybe_send_next_message (CD := toy_codec) 1000000 s in
  operational s /\ state_ s = idle_state /\ out_buffer_ s = [] /\
  effects r = [async_write [Byte.x00]] /\ msg_buffer_ (final r) = [].
Proof.
  intros s r.
  assert (Hop : operational s) by (split; reflexivity).
  split; [exact Hop|]. split; [reflexivity|]. split; [reflexivity|].
  destruct (pump_priority (CD := toy_codec) 1000000 s Hop eq_refl eq_refl)
    as (_ & _ & _ & H3).
  apply (H3 eq_refl eq_refl queued_hello []). reflexivity.
Defined.

(** C1 (counterexample). Two invocations of the pump on an operational
    session. First: idle, out-buffer empty, no received ping awaiting its
    pong, a ping in flight for four seconds, one queued message; clause (3)
    of the claim applies and yet nothing is sent and the queue is as it was.
    Second: a received ping awaits its pong while a write is in progress;
    clause (1) applies and yet no pong is sent. *)
Lemma pump_sends_nothing :
  (let s := set_msg_buffer_ [queued_hello]
              (set_last_sent_ping_ unanswered_ping (blank_session 1 true)) in
   let r := maybe_send_next_message (CD := toy_codec) 4000000 s in
   operational s /\ state_ s = idle_state /\ out_buffer_ s = [] /\
   ping_code (last_recv_ping_ s) = sha256_zero /\
   ping_code (last_sent_ping_ s) <> sha256_zero /\
   msg_buffer_ s = [queued_hello] /\
   effects r = [] /\ msg_buffer_ (final r) = [queued_hello]) /\
  (let s := set_state_ sending_state
              (set_last_recv_ping_ unanswered_ping (blank_session 1 true)) in
   let r := maybe_send_next_message (CD := toy_codec) 4000000 s in
   operational s /\ ping_code (last_recv_ping_ s) <> sha256_zero /\
   effects r = []).
Proof.
  split; cbv zeta; unfold operational; repeat split; try reflexivity;
    cbn; discriminate.
Qed.

Section DispatchProperties.
Context `{CD : Codec}.
Variable relay_ : relay.

Lemma pump_never_closes now s :
  closes (effects (maybe_send_next_message now s)) = false.
Proof.
  destruct (pump_effects now s) as [-> | [buf ->]]; reflexivity.
Qed.

Lemma effects_bind {A B} (m : M A) (k : A -> M B) s :
  effects (bind m k s) =
    effects (m s) ++ effects (k (result (m s)) (final (m s))).
Proof.
  unfold bind, effects, result, final.
  destruct (m s) as [[a s1] e1]. cbn.
  destruct (k a s1) as [[b s2] e2]. reflexivity.
Qed.

Lemma final_bind {A B} (m : M A) (k : A -> M B) s :
  final (bind m k s) = final (k (result (m s)) (final (m s))).
Proof.
  unfold bind, effects, result, final.
  destruct (m s) as [[a s1] e1]. cbn.
  destruct (k a s1) as [[b s2] e2]. reflexivity.
Qed.

Lemma closes_app es1 es2 : closes (es1 ++ es2) = closes es1 || closes es2.
Proof. unfold closes. apply existsb_app. Qed.

Lemma on_pong_spec p s :
  on_pong p s =
    if pong_code p =? ping_code (last_sent_ping_ s)
    then (tt, set_last_sent_ping_ (reset_code (last_sent_ping_ s)) s, [])
    else (tt, s, [socket_close]).
Proof.
  unfold on_pong, bind, gets. cbn.
  destruct (pong_code p =? ping_code (last_sent_ping_ s)); reflexivity.
Qed.

(** C8. A pong whose code differs from the code of the last ping sent makes
    the session close its socket and changes nothing else; a pong whose code
    is that of the last ping sent closes nothing and resets the code of the
    last ping sent, the mark of a ping in flight. Seen from the dispatch, the
    session closes on a pong exactly when the codes differ. *)
Theorem pong_code_check now p s :
  (pong_code p <> ping_code (last_sent_ping_ s) ->
     on_pong p s = (tt, s, [socket_close])) /\
  (pong_code p = ping_code (last_sent_ping_ s) ->
     effects (on_pong p s) = [] /\
     final (on_pong p s) = set_last_sent_ping_ (reset_code (last_sent_ping_ s)) s /\
     ping_code (last_sent_ping_ (final (on_pong p s))) = sha256_zero) /\
  (closes (effects (on_message relay_ now (msg_pong p) s)) = true <->
     pong_code p <> ping_code (last_sent_ping_ s)).
Proof.
  split; [|split].
  - intros H. rewrite on_pong_spec. apply Z.eqb_neq in H. rewrite H. reflexivity.
  - intros H. rewrite on_pong_spec. apply Z.eqb_eq in H. rewrite H.
    repeat split; reflexivity.
  - cbn [on_message]. rewrite effects_bind, closes_app, pump_never_closes, orb_false_r.
    rewrite on_pong_spec.
    destruct (Z.eqb_spec (pong_code p) (ping_code (last_sent_ping_ s))) as [He | Hne];
      cbn; split; intros; congruence.
Qed.

(** C9. A message whose tag has no case in the dispatch makes the session
    close the websocket with [bad_payload], and do nothing else; so does a
    completed read whose frame decodes to such a message, before the next read
    is re-armed. *)
Theorem unknown_tag_bad_payload now msg s :
  has_case msg = false ->
  on_message relay_ now msg s = (tt, s, [ws_close bad_payload]) /\
  (forall n, unpack_message (in_buffer_ s) = Some (msg, n) ->
     effects (on_read relay_ now ec_success s) =
       [ws_close bad_payload; app_post task_do_read]).
Proof.
  intros H.
  assert (E : on_message relay_ now msg s = (tt, s, [ws_close bad_payload]))
    by (destruct msg; try discriminate H; reflexivity).
  split; [exact E|].
  intros n Hn. unfold on_read. unfold bind at 1. unfold gets at 1.
  rewrite Hn. unfold bind at 1. rewrite E. reflexivity.
Qed.

(** What the handler of a channel seed does when it is called. *)
Lemma on_channel_seed_spec cs s :
  on_channel_seed cs s =
    (tt, s, [app_post (task_push_transaction
               [ {| act_name := ACTION_OPENCHANNEL;
                    act_data := pack_block_header_state (seed cs) |} ])]).
Proof. reflexivity. Qed.

(** C3 (the code at the failing input). The dispatch has no case for a
    channel seed: the handler [on_channel_seed] is not called, nothing is
    posted, and the websocket is closed with [bad_payload]. *)
Theorem channel_seed_not_dispatched now cs s :
  on_message relay_ now (msg_channel_seed cs) s = (tt, s, [ws_close bad_payload]) /\
  pushed (effects (on_message relay_ now (msg_channel_seed cs) s)) = [] /\
  pushed (effects (on_channel_seed cs s)) =
    [[ {| act_name := ACTION_OPENCHANNEL;
          act_data := pack_block_header_state (seed cs) |} ]].
Proof. repeat split; reflexivity. Qed.

End DispatchProperties.

(** The session awaits the pong of the ping with code 5. *)
Lemma pong_code_check_witness :
  let s := set_last_sent_ping_ unanswered_ping (blank_session 1 true) in
  (pong_code pong_6 <> ping_code (last_sent_ping_ s) /\
   on_pong pong_6 s = (tt, s, [socket_close])) /\
  (pong_code pong_5 = ping_code (last_sent_ping_ s) /\
   ping_code (last_sent_ping_ (final (on_pong pong_5 s))) = sha256_zero).
Proof.
  intros s.
  assert (H6 : pong_code pong_6 <> ping_code (last_sent_ping_ s)) by discriminate.
  split.
  - split; [exact H6|].
    exact (proj1 (pong_code_check (CD := toy_codec) toy_relay 1000000 pong_6 s) H6).
  - split; [reflexivity|].
    exact (proj2 (proj2 (proj1 (proj2
             (pong_code_check (CD := toy_codec) toy_relay 1000000 pong_5 s)) eq_refl))).
Defined.

(** A channel seed has no case in the dispatch. *)
Lemma unknown_tag_bad_payload_witness :
  let s := blank_session 1 true in
  has_case seed_3 = false /\
  on_message (CD := toy_codec) toy_relay 1000000 seed_3 s
    = (tt, s, [ws_close bad_payload]).
Proof.
  intros s. split; [reflexivity|].
  exact (proj1 (unknown_tag_bad_payload (CD := toy_codec) toy_relay 1000000
                  seed_3 s eq_refl)).
Defined.


Section HandlerProperties.
Context `{CD : Codec}.
Variable relay_ : relay.

(** What the handler of a header batch does when it is called: it pushes one
    [addblocks] transaction exactly when the local head exists and the first
    block number of the batch is the head's number plus one (in 32-bit
    unsigned arithmetic), and pushes nothing otherwise. *)
Lemma on_block_header_with_merkle_path_spec b s :
  on_block_header_with_merkle_path relay_ b s =
    match get_head relay_ with
    | Some h =>
        if first_num b =? wrap32 (head_block_num h + 1)
        then (tt, s, [app_post (task_push_transaction [addblocks_action b])])
        else (tt, s, [])
    | None => (tt, s, [])
    end.
Proof.
  unfold on_block_header_with_merkle_path.
  destruct (get_head relay_) as [h|]; [|reflexivity].
  destruct (first_num b =? wrap32 (head_block_num h + 1)); reflexivity.
Qed.

Lemma on_block_header_with_merkle_path_pushes b s :
  (pushed (effects (on_block_header_with_merkle_path relay_ b s)) =
     [[addblocks_action b]] <->
   exists h, get_head relay_ = Some h /\
             first_num b = wrap32 (head_block_num h + 1)) /\
  (pushed (effects (on_block_header_with_merkle_path relay_ b s)) =
     [[addblocks_action b]] \/
   pushed (effects (on_block_header_with_merkle_path relay_ b s)) = []).
Proof.
  rewrite on_block_header_with_merkle_path_spec.
  destruct (get_head relay_) as [h|].
  - destruct (Z.eqb_spec (first_num b) (wrap32 (head_block_num h + 1))) as [He|Hne];
      cbn; split; try (split; intros); eauto; try discriminate.
    destruct H as (h' & Hh & Hf). congruence.
  - cbn. split; [split; intros H|]; eauto; try discriminate.
    destruct H as (h' & Hh & _). discriminate.
Qed.

(** C6 (the code at the failing input). With a local head and a batch whose
    first block number is the head's number plus one, the handler
    [on_block_header_with_merkle_path] would push one [addblocks]
    transaction; but the dispatch has no case for the message: a received
    batch pushes nothing and closes the websocket with [bad_payload]. *)
Theorem block_header_batch_not_dispatched now b s h :
  get_head relay_ = Some h ->
  first_num b = wrap32 (head_block_num h + 1) ->
  pushed (effects (on_block_header_with_merkle_path relay_ b s)) =
    [[addblocks_action b]] /\
  on_message relay_ now (msg_block_header_with_merkle_path b) s =
    (tt, s, [ws_close bad_payload]) /\
  pushed (effects (on_message relay_ now (msg_block_header_with_merkle_path b) s)) = [].
Proof.
  intros Hh Hf. split; [|split; reflexivity].
  apply on_block_header_with_merkle_path_pushes. eauto.
Qed.

(** C7 (the code at the failing input). The dispatch has no case for an
    [icp_actions] message: the handler [on_icp_actions] is not called, no
    transaction is pushed, and the websocket is closed with [bad_payload]. *)
Theorem icp_actions_not_dispatched now ia s :
  on_message relay_ now (msg_icp_actions ia) s = (tt, s, [ws_close bad_payload]) /\
  pushed (effects (on_message relay_ now (msg_icp_actions ia) s)) = [].
Proof. split; reflexivity. Qed.

End HandlerProperties.

(** The batch of block 101 on the head of block 100. *)
Lemma block_header_batch_not_dispatched_witness :
  get_head toy_relay = Some {| head_block_num := 100; head_block_id := 0 |} /\
  first_num (HT := toy_types) next_batch = wrap32 (100 + 1) /\
  pushed (effects (on_block_header_with_merkle_path (CD := toy_codec) toy_relay
                     next_batch (blank_session 1 true)))
    = [[addblocks_action (CD := toy_codec) next_batch]] /\
  pushed (effects (on_message (CD := toy_codec) toy_relay 1000000
                     (msg_block_header_with_merkle_path next_batch)
                     (blank_session 1 true))) = [].
Proof.
  split; [reflexivity|]. split; [reflexivity|].
  pose proof (block_header_batch_not_dispatched (CD := toy_codec) toy_relay 1000000
                next_batch (blank_session 1 true)
                {| head_block_num := 100; head_block_id := 0 |} eq_refl eq_refl)
    as (H1 & _ & H3).
  split; [exact H1 | exact H3].
Defined.


Section IcpActionsProperties.
Context `{CD : Codec}.

Lemma emit_bind {B} e (k : unit -> M B) s :
  bind (emit e) k s = (result (k tt s), final (k tt s), e :: effects (k tt s)).
Proof.
  unfold bind, emit, result, final, effects.
  destruct (k tt s) as [[b s2] e2]. reflexivity.
Qed.

Lemma pushed_cons acts es :
  pushed (app_post (task_push_transaction acts) :: es) = acts :: pushed es.
Proof. reflexivity. Qed.

(** The loop from index [i]: it leaves the session as it was; it completes
    exactly when both vectors reach to the end of [peer_actions]; otherwise it
    stops at the first index past the end of one of them, the transactions of
    the indices before that one already posted. *)
Lemma push_peer_actions_spec ia rest : forall i s,
  (i <= length (actions ia))%nat -> (i <= length (action_receipts ia))%nat ->
  let res := push_peer_actions ia (header_id (ia_block_header ia)) i rest s in
  final res = s /\
  match result res with
  | completed =>
      (i + length rest <= length (actions ia))%nat /\
      (i + length rest <= length (action_receipts ia))%nat /\
      length (pushed (effects res)) = length rest
  | out_of_bounds v j =>
      (i <= j < i + length rest)%nat /\
      j = Nat.min (length (actions ia)) (length (action_receipts ia)) /\
      (v = vec_actions <-> (length (actions ia) <= length (action_receipts ia))%nat) /\
      length (pushed (effects res)) = (j - i)%nat
  end.
Proof.
  induction rest as [|nm rest IH]; intros i s Ha Hr; cbn [push_peer_actions].
  - cbn. split; [reflexivity|]. lia.
  - destruct ((actions ia : list action) !! i) as [a_i|] eqn:Ea.
    2:{ apply lookup_ge_None in Ea. cbn. split; [reflexivity|].
        repeat split; try lia. }
    apply lookup_lt_Some in Ea.
    destruct ((action_receipts ia : list action_receipt) !! i) as [r_i|] eqn:Er.
    2:{ apply lookup_ge_None in Er. cbn. split; [reflexivity|].
        repeat split; try lia; try discriminate. }
    apply lookup_lt_Some in Er.
    rewrite emit_bind. cbn [result final effects fst snd].
    specialize (IH (S i) s ltac:(lia) ltac:(lia)). cbv zeta in IH.
    set (res' := push_peer_actions ia (header_id (ia_block_header ia)) (S i) rest s) in *.
    destruct IH as [IHf IHr]. split; [exact IHf|].
    rewrite pushed_cons. cbn [length].
    destruct (result res') as [|v j].
    + destruct IHr as (? & ? & ->). repeat split; lia.
    + destruct IHr as (? & ? & ? & ->). repeat split; try tauto; lia.
Qed.

(** The transaction posted for each index the loop gets through. *)
Lemma push_peer_actions_lookup ia rest : forall i s k nm a_k r_k,
  rest !! k = Some nm ->
  (actions ia : list action) !! (i + k)%nat = Some a_k ->
  (action_receipts ia : list action_receipt) !! (i + k)%nat = Some r_k ->
  (k < length (pushed (effects
         (push_peer_actions ia (header_id (ia_block_header ia)) i rest s))))%nat ->
  pushed (effects (push_peer_actions ia (header_id (ia_block_header ia)) i rest s)) !! k
    = Some (peer_transaction ia nm a_k r_k).
Proof.
  induction rest as [|nm0 rest IH]; intros i s k nm a_k r_k Hk Ha Hr Hlen.
  - discriminate.
  - cbn [push_peer_actions] in *.
    destruct ((actions ia : list action) !! i) as [a_i|] eqn:Ea;
      [|cbn in Hlen; lia].
    destruct ((action_receipts ia : list action_receipt) !! i) as [r_i|] eqn:Er;
      [|cbn in Hlen; lia].
    rewrite emit_bind in *. cbn [result final effects fst snd] in *.
    rewrite pushed_cons in *.
    destruct k as [|k].
    + replace (i + 0)%nat with i in * by lia.
      cbn in Hk. injection Hk as ->.
      rewrite Ea in Ha. rewrite Er in Hr. injection Ha as ->. injection Hr as ->.
      reflexivity.
    + cbn in Hk. cbn [lookup list_lookup]. cbn in Hlen.
      apply (IH (S i) s k nm a_k r_k Hk).
      * replace (S i + k)%nat with (i + S k)%nat by lia. exact Ha.
      * replace (S i + k)%nat with (i + S k)%nat by lia. exact Hr.
      * lia.
Qed.

Lemma on_icp_actions_unfold ia s :
  on_icp_actions ia s =
    let res := push_peer_actions ia (header_id (ia_block_header ia)) 0%nat
                 (peer_actions ia) s in
    (result res, final res,
     app_post (task_push_transaction [addblock_action ia]) :: effects res).
Proof. unfold on_icp_actions. rewrite emit_bind. reflexivity. Qed.

(** X14. What the handler of an [icp_actions] message does when it is
    called on a message whose [actions] and [action_receipts] are at least as
    long as its [peer_actions]: it runs to its end, leaves the session as it
    was, and pushes the [addblock] transaction and then, for each index of
    [peer_actions] in order, the transaction of that index. *)
Lemma on_icp_actions_pushes ia s :
  (length (peer_actions ia) <= length (actions ia))%nat ->
  (length (peer_actions ia) <= length (action_receipts ia))%nat ->
  let res := on_icp_actions ia s in
  result res = completed /\ final res = s /\
  length (pushed (effects res)) = S (length (peer_actions ia)) /\
  pushed (effects res) !! 0%nat = Some [addblock_action ia] /\
  (forall i nm a_i r_i,
     peer_actions ia !! i = Some nm ->
     (actions ia : list action) !! i = Some a_i ->
     (action_receipts ia : list action_receipt) !! i = Some r_i ->
     pushed (effects res) !! S i = Some (peer_transaction ia nm a_i r_i)).
Proof.
  intros Ha Hr res. subst res. rewrite on_icp_actions_unfold. cbv zeta.
  cbn [result final effects fst snd]. rewrite pushed_cons.
  pose proof (push_peer_actions_spec ia (peer_actions ia) 0%nat s
                ltac:(lia) ltac:(lia)) as [Hf Hres].
  cbv zeta in Hf, Hres.
  destruct (result (push_peer_actions ia (header_id (ia_block_header ia)) 0%nat
                      (peer_actions ia) s)) as [|v j] eqn:Eres.
  - destruct Hres as (_ & _ & Hlen).
    split; [reflexivity|]. split; [exact Hf|]. split; [cbn; lia|].
    split; [reflexivity|].
    intros i nm a_i r_i Hn Hai Hri. cbn [lookup list_lookup].
    apply (push_peer_actions_lookup ia (peer_actions ia) 0%nat s i nm a_i r_i);
      try assumption.
    rewrite Hlen. apply lookup_lt_Some in Hn. exact Hn.
  - destruct Hres as (Hj & Hmin & _). lia.
Qed.

(** C10. The handler of an [icp_actions] message reads [actions[i]] and
    [action_receipts[i]] for every index [i] of [peer_actions] without
    checking a length: all its accesses are in bounds, and it runs to its
    end, exactly when both vectors are at least as long as [peer_actions];
    otherwise it has already posted the [addblock] transaction and the
    transactions of the indices in range when it reads past the end of the
    shorter vector. *)
Theorem icp_actions_unchecked_indexing ia s :
  let res := on_icp_actions ia s in
  (result res = completed <->
     (length (peer_actions ia) <= length (actions ia))%nat /\
     (length (peer_actions ia) <= length (action_receipts ia))%nat) /\
  (forall v j, result res = out_of_bounds v j ->
     (j < length (peer_actions ia))%nat /\
     j = Nat.min (length (actions ia)) (length (action_receipts ia)) /\
     (v = vec_actions <-> (length (actions ia) <= length (action_receipts ia))%nat) /\
     length (pushed (effects res)) = S j).
Proof.
  intros res. subst res. rewrite on_icp_actions_unfold. cbv zeta.
  cbn [result final effects fst snd]. rewrite pushed_cons.
  pose proof (push_peer_actions_spec ia (peer_actions ia) 0%nat s
                ltac:(lia) ltac:(lia)) as [Hf Hres].
  cbv zeta in Hf, Hres.
  destruct (result (push_peer_actions ia (header_id (ia_block_header ia)) 0%nat
                      (peer_actions ia) s)) as [|v j] eqn:Eres.
  - destruct Hres as (H1 & H2 & _). split.
    + split; [intros _; lia | reflexivity].
    + intros v j H. discriminate H.
  - destruct Hres as (Hj & Hmin & Hv & Hlen). split.
    + split; [discriminate | lia].
    + intros v' j' H. injection H as <- <-.
      repeat split; try tauto; cbn [length]; lia.
Qed.

End IcpActionsProperties.

(** One peer action and no action: the first access is past the end. *)
Lemma icp_actions_unchecked_indexing_witness :
  let res := on_icp_actions (CD := toy_codec) misaligned (blank_session 1 true) in
  result res = out_of_bounds vec_actions 0 /\
  length (pushed (effects res)) = 1%nat.
Proof.
  intros res. split; [reflexivity|].
  exact (proj2 (proj2 (proj2
           (proj2 (icp_actions_unchecked_indexing (CD := toy_codec) misaligned
                     (blank_session 1 true)) vec_actions 0%nat eq_refl)))).
Defined.


Section ReadLoopProperties.
Context `{CD : Codec}.
Variable relay_ : relay.

Lemma pump_in_buffer now s :
  in_buffer_ (final (maybe_send_next_message now s)) = in_buffer_ s.
Proof.
  rewrite pump_spec.
  destruct (is_sending (state_ s)); [reflexivity|].
  destruct (nonempty (out_buffer_ s)); [reflexivity|].
  destruct (negb (recv_remote_hello_ s) || negb (sent_remote_hello_ s)); [reflexivity|].
  destruct (negb (ping_code (last_recv_ping_ s) =? sha256_zero)); [reflexivity|].
  destruct (negb (now - ping_sent (last_sent_ping_ s) <? three_seconds)).
  - destruct (ping_code (last_sent_ping_ s) =? sha256_zero); reflexivity.
  - destruct (msg_buffer_ s); reflexivity.
Qed.

Lemma pump_no_read now s :
  ~ In async_read (effects (maybe_send_next_message now s)).
Proof.
  destruct (pump_effects now s) as [-> | [buf ->]]; cbn; intuition discriminate.
Qed.

Lemma on_hello_spec hi s :
  on_hello relay_ hi s =
    if negb (hello_chain_id hi =? get_chain_id) then (tt, s, [socket_close])
    else if hello_id hi =? id_ relay_ then (tt, s, [socket_close])
    else (tt, set_peer_id_ (hello_id hi) s,
          [app_post task_check_for_redundant_connection]).
Proof.
  unfold on_hello.
  destruct (negb (hello_chain_id hi =? get_chain_id)); [reflexivity|].
  destruct (hello_id hi =? id_ relay_); reflexivity.
Qed.

(** The three handlers the dispatch calls leave the in-buffer alone and
    start no read. *)
Lemma dispatched_handler_frame now msg s :
  in_buffer_ (final (on_message relay_ now msg s)) = in_buffer_ s /\
  ~ In async_read (effects (on_message relay_ now msg s)).
Proof.
  destruct msg as [hi | p | p | cs | b | ia]; cbn [on_message];
    try (split; [reflexivity | cbn; intuition discriminate]).
  - rewrite final_bind, effects_bind, pump_in_buffer. split.
    + rewrite on_hello_spec.
      destruct (negb (hello_chain_id hi =? get_chain_id)); [reflexivity|].
      destruct (hello_id hi =? id_ relay_); reflexivity.
    + intros [H | H]%in_app_or; [|exact (pump_no_read _ _ H)].
      rewrite on_hello_spec in H.
      destruct (negb (hello_chain_id hi =? get_chain_id));
        [cbn in H; intuition discriminate|].
      destruct (hello_id hi =? id_ relay_); cbn in H; intuition discriminate.
  - rewrite final_bind, effects_bind, pump_in_buffer. split; [reflexivity|].
    intros [H | H]%in_app_or; [|exact (pump_no_read _ _ H)].
    cbn in H. intuition discriminate.
  - rewrite final_bind, effects_bind, pump_in_buffer. split.
    + rewrite on_pong_spec.
      destruct (pong_code p =? ping_code (last_sent_ping_ s)); reflexivity.
    + intros [H | H]%in_app_or; [|exact (pump_no_read _ _ H)].
      rewrite on_pong_spec in H.
      destruct (pong_code p =? ping_code (last_sent_ping_ s));
        cbn in H; intuition discriminate.
Qed.

(** C4 (as amended). After a successfully completed read whose in-buffer
    decodes to a message, the session hands that one message to the message
    handler, then drops from the in-buffer exactly the bytes the decoder
    consumed, then posts the next read to the application event loop, and
    starts no read itself. When the in-buffer does not decode, the session
    closes the websocket with [bad_payload] and does nothing else. *)
Theorem read_loop_discipline now s :
  (forall msg n, unpack_message (in_buffer_ s) = Some (msg, n) ->
     let r := on_read relay_ now ec_success s in
     let h := on_message relay_ now msg s in
     effects r = effects h ++ [app_post task_do_read] /\
     final r = set_in_buffer_ (drop n (in_buffer_ s)) (final h) /\
     ~ In async_read (effects r)) /\
  (unpack_message (in_buffer_ s) = None ->
     on_read relay_ now ec_success s = (tt, s, [ws_close bad_payload])).
Proof.
  split.
  - intros msg n Hd r h. subst r h.
    destruct (dispatched_handler_frame now msg s) as [Hbuf Hnr].
    assert (E : on_read relay_ now ec_success s =
                (tt, set_in_buffer_ (drop n (in_buffer_ s))
                       (final (on_message relay_ now msg s)),
                 effects (on_message relay_ now msg s) ++ [app_post task_do_read])).
    { unfold on_read. unfold bind at 1. unfold gets at 1. rewrite Hd.
      unfold bind, modify, wait_on_app, emit, final, effects in *.
      destruct (on_message relay_ now msg s) as [[u s1] e1]. cbn in *.
      rewrite Hbuf. reflexivity. }
    rewrite E. cbn [effects final fst snd]. repeat split.
    intros [H | H]%in_app_or; [exact (Hnr H)|].
    cbn in H. intuition discriminate.
  - intros Hd. unfold on_read. unfold bind at 1. unfold gets at 1.
    rewrite Hd. reflexivity.
Qed.

End ReadLoopProperties.

(** A frame with the tag of a pong and its code decodes; the pong is handed
    to the dispatch, its two bytes are consumed and the next read is posted. *)
Lemma read_loop_discipline_witness :
  let s := set_in_buffer_ [Byte.x02; Byte.x00; Byte.x09] (blank_session 1 true) in
  let r := on_read (CD := toy_codec) toy_relay 1000000 ec_success s in
  unpack_message (Codec := toy_codec) (in_buffer_ s) =
    Some (msg_pong {| pong_sent := 0; pong_code := 0 |}, 2%nat) /\
  in_buffer_ (final r) = [Byte.x09] /\
  last (effects r) = Some (app_post task_do_read).
Proof.
  intros s r.
  pose proof (proj1 (read_loop_discipline (CD := toy_codec) toy_relay 1000000 s)
                (msg_pong {| pong_sent := 0; pong_code := 0 |}) 2%nat eq_refl)
    as (He & Hf & _).
  split; [reflexivity|]. subst r. rewrite He, Hf. split; reflexivity.
Defined.

(** C4 (counterexample). A successfully completed read whose frame does not
    decode: no message is handed to the dispatch, nothing is consumed from
    the in-buffer and no read is re-armed; the websocket is closed. *)
Lemma read_of_undecodable_frame :
  let s := set_in_buffer_ [Byte.x09] (blank_session 1 true) in
  let r := on_read (CD := toy_codec) toy_relay 1000000 ec_success s in
  effects r = [ws_close bad_payload] /\
  in_buffer_ (final r) = [Byte.x09] /\
  posted (effects r) = [].
Proof. repeat split; reflexivity. Qed.

Section WriteProperties.
Context `{CD : Codec}.
Variable relay_ : relay.

Lemma writes_app es1 es2 : writes (es1 ++ es2) = writes es1 ++ writes es2.
Proof. unfold writes. apply omap_app. Qed.

Lemma apply_effects_sess es : forall c, sess (apply_effects es c) = sess c.
Proof.
  unfold apply_effects.
  induction es as [|e es IH]; intros c; [reflexivity|].
  cbn [foldl]. rewrite IH. destruct e; reflexivity.
Qed.

Lemma apply_effects_writes es : forall c,
  writes_in_flight (apply_effects es c)
  = (writes_in_flight c + length (writes es))%nat.
Proof.
  unfold apply_effects.
  induction es as [|e es IH]; intros c; [cbn; lia|].
  cbn [foldl]. rewrite IH. unfold writes. destruct e; cbn; lia.
Qed.

Lemma run_sess {A} (m : M A) c : sess (run m c) = final (m (sess c)).
Proof. unfold run. rewrite apply_effects_sess. reflexivity. Qed.

Lemma run_writes {A} (m : M A) c :
  writes_in_flight (run m c)
  = (writes_in_flight c + length (writes (effects (m (sess c)))))%nat.
Proof. unfold run. rewrite apply_effects_writes. reflexivity. Qed.

(** The pump starts at most one write, only from [idle_state], and a write
    it starts leaves the session in [sending_state]. *)
Lemma pump_writes now s :
  let r := maybe_send_next_message now s in
  (length (writes (effects r)) <= 1)%nat /\
  (writes (effects r) <> [] ->
     state_ (final r) = sending_state /\ state_ s = idle_state) /\
  (writes (effects r) = [] -> final r = s).
Proof.
  cbv zeta. split; [apply pump_at_most_one_write|].
  pose proof (pump_state now s) as Hst.
  destruct (state_ s) eqn:Es.
  - destruct (writes (effects (maybe_send_next_message now s))); split;
      intros; try congruence; auto.
  - rewrite (pump_gate now s) in * by (left; exact Es). cbn. split; congruence.
Qed.

(** Each handler the dispatch calls starts no write and leaves [state_]
    alone; the dispatch then runs the pump. *)
Lemma on_message_runs_pump now msg s :
  (has_case msg = true /\
   exists s0, state_ s0 = state_ s /\
     writes (effects (on_message relay_ now msg s))
       = writes (effects (maybe_send_next_message now s0)) /\
     final (on_message relay_ now msg s) = final (maybe_send_next_message now s0)) \/
  (has_case msg = false /\
   on_message relay_ now msg s = (tt, s, [ws_close bad_payload])).
Proof.
  destruct msg as [hi | p | p | cs | b | ia]; cbn [on_message has_case];
    try (right; split; reflexivity); left; (split; [reflexivity|]).
  - exists (final (on_hello relay_ hi s)).
    rewrite final_bind, effects_bind, writes_app, on_hello_spec.
    destruct (negb (hello_chain_id hi =? get_chain_id)); [repeat split|].
    destruct (hello_id hi =? id_ relay_); repeat split.
  - exists (final (on_ping now p s)).
    rewrite final_bind, effects_bind, writes_app. repeat split.
  - exists (final (on_pong p s)).
    rewrite final_bind, effects_bind, writes_app, on_pong_spec.
    destruct (pong_code p =? ping_code (last_sent_ping_ s)); repeat split.
Qed.

Lemma on_read_unfold now s :
  on_read relay_ now ec_success s =
    match unpack_message (in_buffer_ s) with
    | Some (msg, n) =>
        let h := on_message relay_ now msg s in
        (tt, set_in_buffer_ (drop n (in_buffer_ (final h))) (final h),
         effects h ++ [app_post task_do_read])
    | None => (tt, s, [ws_close bad_payload])
    end.
Proof.
  unfold on_read. unfold bind at 1. unfold gets at 1.
  destruct (unpack_message (in_buffer_ s)) as [[msg n]|]; [|reflexivity].
  unfold bind, modify, wait_on_app, emit, final, effects.
  destruct (on_message relay_ now msg s) as [[u s1] e1]. reflexivity.
Qed.

Lemma on_write_unfold now s :
  on_write now ec_success s =
    maybe_send_next_message now (set_out_buffer_ [] (set_state_ idle_state s)).
Proof.
  unfold on_write, bind, modify.
  destruct (maybe_send_next_message now
              (set_out_buffer_ [] (set_state_ idle_state s))) as [[[] s2] e2].
  reflexivity.
Qed.

(** The writes a completion handler or posted task starts are those of one
    invocation of the pump from a session in the same [state_], unless it
    starts none and leaves [state_] alone. *)
Lemma handler_runs_pump e s :
  (exists now s0,
     match e with ev_write _ _ => True | _ => state_ s0 = state_ s end /\
     writes (effects (handler relay_ e s))
       = writes (effects (maybe_send_next_message now s0)) /\
     state_ (final (handler relay_ e s))
       = state_ (final (maybe_send_next_message now s0))) \/
  (writes (effects (handler relay_ e s)) = [] /\
   state_ (final (handler relay_ e s)) = state_ s).
Proof.
  destruct e as [now ec frame | now ec | | msg | now]; cbn [handler].
  - rewrite effects_bind, final_bind.
    destruct ec; try (right; split; reflexivity).
    cbn [modify effects final result fst snd app].
    set (s1 := set_in_buffer_ (in_buffer_ s ++ frame) s).
    change (state_ s) with (state_ s1).
    rewrite on_read_unfold.
    destruct (unpack_message (in_buffer_ s1)) as [[msg n]|];
      [|right; split; reflexivity].
    cbv zeta. cbn [effects final fst snd]. rewrite writes_app, app_nil_r.
    destruct (on_message_runs_pump now msg s1) as [(_ & s0 & H0 & Hw & Hf) | (_ & E)].
    + left. exists now, s0. rewrite Hw, Hf. repeat split. exact H0.
    + right. rewrite E. split; reflexivity.
  - destruct ec; try (right; split; reflexivity).
    left. exists now, (set_out_buffer_ [] (set_state_ idle_state s)).
    rewrite on_write_unfold. repeat split.
  - right. split; reflexivity.
  - right. split; reflexivity.
  - left. exists now, s. repeat split.
Qed.

Lemma start_spec s :
  start relay_ s =
    (tt, set_state_ sending_state (set_out_buffer_ (pack_message (hello_msg relay_)) s),
     [async_write (pack_message (hello_msg relay_)); async_read]).
Proof. reflexivity. Qed.

Lemma write_invariant_start c : fresh c -> write_invariant (run (start relay_) c).
Proof.
  intros [Hw _]. unfold write_invariant.
  rewrite run_writes, run_sess, start_spec, Hw. cbn. split; [lia | reflexivity].
Qed.

Lemma write_invariant_step c e c' :
  write_invariant c -> step relay_ e c = Some c' -> write_invariant c'.
Proof.
  intros [Hle Hst] Hstep. unfold write_invariant.
  pose proof (handler_runs_pump e (sess c)) as Hh.
  destruct e as [now ec frame | now ec | | msg | now]; unfold step in Hstep.
  2:{ destruct (0 <? writes_in_flight c)%nat eqn:Hpos; [|discriminate].
      apply Nat.ltb_lt in Hpos. injection Hstep as <-.
      rewrite run_writes, run_sess.
      cbn [complete_write writes_in_flight sess handler] in *.
      replace (Nat.pred (writes_in_flight c)) with 0%nat by lia.
      destruct Hh as [(now' & s0 & _ & Hw & Hf) | (Hw & _)].
      - rewrite Hw, Hf. destruct (pump_writes now' s0) as (H1 & H2 & _).
        split; [lia|]. intros Hone. apply H2.
        destruct (writes (effects (maybe_send_next_message now' s0)));
          [cbn in Hone; lia | discriminate].
      - rewrite Hw. cbn. split; lia. }
  1: destruct (0 <? reads_in_flight c)%nat; [|discriminate].
  all: injection Hstep as <-; rewrite run_writes, run_sess;
    cbn [complete_read writes_in_flight sess handler] in *;
    (destruct Hh as [(now' & s0 & H0 & Hw & Hf) | (Hw & Hf)];
     [ rewrite Hw, Hf; destruct (pump_writes now' s0) as (H1 & H2 & H3);
       destruct (writes (effects (maybe_send_next_message now' s0))) as [|w ws] eqn:Ew;
       [ rewrite (H3 eq_refl), H0; cbn; split; [lia|]; intros; apply Hst; lia
       | destruct (H2 ltac:(discriminate)) as [Hs Hi]; rewrite H0 in Hi;
         assert (writes_in_flight c = 0%nat)
           by (destruct (writes_in_flight c) as [|[|n]]; [reflexivity | | lia];
               specialize (Hst eq_refl); congruence);
         cbn [length] in *; split; [lia | intros; exact Hs] ]
     | rewrite Hw, Hf; cbn; split; [lia|]; intros; apply Hst; lia ]).
Qed.

Lemma reachable_write_invariant c : reachable relay_ c -> write_invariant c.
Proof.
  induction 1 as [c Hf | c e c' _ IH Hstep].
  - apply write_invariant_start. exact Hf.
  - exact (write_invariant_step c e c' IH Hstep).
Qed.

(** The writes a handler starts are exactly those of the call of the pump
    it makes, and none when it makes none: no handler writes to the wire by
    another way. *)
Lemma handler_writes_are_the_pump_s e s :
  writes (effects (handler relay_ e s)) =
    match pump_call relay_ e s with
    | Some (now, s0) => writes (effects (maybe_send_next_message now s0))
    | None => []
    end.
Proof.
  destruct e as [now ec frame | now ec | | msg | now]; cbn [handler pump_call].
  - rewrite effects_bind, writes_app.
    destruct ec; try reflexivity.
    cbn [modify effects final result fst snd app writes omap].
    rewrite on_read_unfold. cbv zeta.
    set (s1 := set_in_buffer_ (in_buffer_ s ++ frame) s).
    destruct (unpack_message (in_buffer_ s1)) as [[msg n]|]; [|reflexivity].
    cbn [effects snd]. rewrite writes_app, app_nil_r.
    destruct msg as [hi | p | p | cs | b | ia]; cbn [on_message];
      try reflexivity; rewrite effects_bind, writes_app.
    + rewrite on_hello_spec.
      destruct (negb (hello_chain_id hi =? get_chain_id)); [reflexivity|].
      destruct (hello_id hi =? id_ relay_); reflexivity.
    + reflexivity.
    + rewrite on_pong_spec.
      destruct (pong_code p =? ping_code (last_sent_ping_ s1)); reflexivity.
  - destruct ec; try reflexivity. rewrite on_write_unfold. reflexivity.
  - reflexivity.
  - reflexivity.
  - reflexivity.
Qed.

(** C5 (as amended). On every session, from the completion of its accept or
    handshake on, at most one websocket write is in flight at any time: the
    state is [idle_state] or [sending_state], and it is [sending_state]
    while a write is in flight; the send pump starts no write while the
    state is [sending_state] or the out-buffer is not empty. The producers
    into the wire are the send pump and [do_hello]: the writes that the
    handler of an event starts are exactly those of the call of the pump it
    makes, at the session as it is at that call, and none when it makes no
    such call (a queued message, a re-armed read, a failed or undecodable
    read, a message without a case, a failed write); the one write at the
    start of the session is the hello, which [do_hello] starts directly,
    without a call of the pump. *)
Theorem one_write_in_flight c :
  reachable relay_ c ->
  ((writes_in_flight c <= 1)%nat /\
   (writes_in_flight c = 1%nat -> state_ (sess c) = sending_state)) /\
  (forall now,
     state_ (sess c) = sending_state \/ out_buffer_ (sess c) <> [] ->
     maybe_send_next_message now (sess c) = (tt, sess c, [])) /\
  (forall e s,
     writes (effects (handler relay_ e s)) =
       match pump_call relay_ e s with
       | Some (now, s0) => writes (effects (maybe_send_next_message now s0))
       | None => []
       end) /\
  (forall s,
     effects (start relay_ s) =
       effects (do_hello relay_ s) ++ [async_read] /\
     effects (do_hello relay_ s) = [async_write (pack_message (hello_msg relay_))]).
Proof.
  intros Hreach. split; [exact (reachable_write_invariant c Hreach)|].
  split; [intros now; apply pump_gate|].
  split; [exact handler_writes_are_the_pump_s|].
  intros s. split; reflexivity.
Qed.

End WriteProperties.

(** A session that has just started: its hello is the one write in flight. *)
Lemma one_write_in_flight_witness :
  let c := run (start (CD := toy_codec) toy_relay) (blank_conn 1 false) in
  reachable (CD := toy_codec) toy_relay c /\
  writes_in_flight c = 1%nat /\ state_ (sess c) = sending_state.
Proof.
  intros c.
  assert (Hr : reachable (CD := toy_codec) toy_relay c)
    by (apply reachable_start; split; reflexivity).
  split; [exact Hr|]. split; [reflexivity|].
  apply (one_write_in_flight (CD := toy_codec) toy_relay c Hr). reflexivity.
Defined.

(** C5 (counterexample). On a session that has just been constructed the
    pump sends nothing, whatever the time; the write of the hello is started
    by [do_hello], which does not go through the pump. *)
Lemma hello_is_written_outside_the_pump :
  let s := blank_session 1 false in
  writes (effects (do_hello (CD := toy_codec) toy_relay s)) = [[Byte.x00]] /\
  (forall now, effects (maybe_send_next_message (CD := toy_codec) now s) = []).
Proof. split; [reflexivity | intros now; reflexivity]. Qed.

Section RegistryProperties.
Context `{CD : Codec}.

Lemma redundant_check_spec self k (reg : gmap Z conn) :
  redundant_check self k reg =
    if redundant_with self reg k then alter close_socket self reg else reg.
Proof.
  unfold redundant_check, redundant_with.
  destruct (reg !! k) as [ck|]; [|reflexivity].
  destruct (reg !! self) as [cself|]; reflexivity.
Qed.

Lemma redundant_with_closed self k (reg : gmap Z conn) :
  redundant_with self (alter close_socket self reg) k = redundant_with self reg k.
Proof.
  unfold redundant_with.
  destruct (decide (self = k)) as [->|Hne].
  - rewrite lookup_alter_eq.
    destruct (reg !! k) as [ck|]; [|reflexivity]. cbn.
    rewrite bool_decide_eq_false_2 by (intros H; apply H; reflexivity). reflexivity.
  - rewrite lookup_alter_eq, lookup_alter_ne by exact Hne.
    destruct (reg !! k) as [ck|]; [|reflexivity].
    destruct (reg !! self) as [cself|]; reflexivity.
Qed.

Lemma close_socket_twice self (reg : gmap Z conn) :
  alter close_socket self (alter close_socket self reg) = alter close_socket self reg.
Proof.
  rewrite alter_alter_eq. apply alter_ext. intros c _. reflexivity.
Qed.

(** The scan over a list of handles closes [self] exactly when one of them
    is another session with the peer id of [self]. *)
Lemma scan_list self (reg : gmap Z conn) l :
  foldr (redundant_check self) reg l =
    if existsb (redundant_with self reg) l
    then alter close_socket self reg else reg.
Proof.
  induction l as [|k l IH]; [reflexivity|].
  cbn [foldr existsb]. rewrite IH, redundant_check_spec.
  destruct (existsb (redundant_with self reg) l).
  - rewrite redundant_with_closed, close_socket_twice, orb_true_r.
    destruct (redundant_with self reg k); reflexivity.
  - rewrite orb_false_r. reflexivity.
Qed.

Lemma existsb_redundant_with self (reg : gmap Z conn) :
  existsb (redundant_with self reg) (elements (dom reg)) = true <->
  has_twin self reg.
Proof.
  rewrite existsb_exists. split.
  - intros (k & _ & Hk). unfold redundant_with in Hk.
    destruct (reg !! k) as [ck|] eqn:Ek; [|discriminate].
    destruct (reg !! self) as [cself|] eqn:Es; [|discriminate].
    apply andb_true_iff in Hk as [Hne Heq].
    apply bool_decide_eq_true in Hne. apply Z.eqb_eq in Heq.
    exists k, ck, cself. auto.
  - intros (k & ck & cself & Hne & Ek & Es & Heq). exists k. split.
    + apply list_elem_of_In, elem_of_elements, elem_of_dom. eauto.
    + unfold redundant_with. rewrite Ek, Es.
      apply andb_true_iff. split; [apply bool_decide_eq_true; exact Hne|].
      apply Z.eqb_eq. exact Heq.
Qed.

(** The scan posted by [check_for_redundant_connection]: it closes the
    socket of [self], the session that posted it, if another registered
    session has the same peer id, and otherwise changes nothing. *)
Lemma scan_spec self (reg : gmap Z conn) :
  (has_twin self reg ->
     run_check_for_redundant_connection self reg = alter close_socket self reg) /\
  (~ has_twin self reg ->
     run_check_for_redundant_connection self reg = reg).
Proof.
  unfold run_check_for_redundant_connection, for_each_session.
  rewrite scan_list.
  destruct (existsb (redundant_with self reg) (elements (dom reg))) eqn:E.
  - apply existsb_redundant_with in E. split; [reflexivity | tauto].
  - split; [|reflexivity].
    intros H. apply existsb_redundant_with in H. congruence.
Qed.

End RegistryProperties.

Section HelloProperties.
Context `{CD : Codec}.
Variable relay_ : relay.

Lemma receive_hello_accepted self hi (reg : gmap Z conn) c :
  reg !! self = Some c ->
  hello_chain_id hi = get_chain_id ->
  hello_id hi <> id_ relay_ ->
  receive_hello relay_ self hi reg =
    run_check_for_redundant_connection self
      (<[self := set_sess (set_peer_id_ (hello_id hi) (sess c)) c]> reg).
Proof.
  intros Hc Hchain Hid. unfold receive_hello, run_on. rewrite Hc.
  unfold run. rewrite on_hello_spec.
  apply Z.eqb_eq in Hchain. apply Z.eqb_neq in Hid. rewrite Hchain, Hid.
  reflexivity.
Qed.

(** C2 (as amended). A hello whose chain id is the local one and whose id
    is not the relay's own makes the session record the sender's id as its
    peer id and post the scan of the registry. The scan leaves every other
    session as it was, and closes the socket of the session that received
    the hello if another registered session has that peer id; if none has,
    it leaves that session's socket as it was. So after the scan the
    receiving session is open only if no other registered session has its
    peer id. *)
Theorem hello_closes_redundant_self self hi (reg : gmap Z conn) c :
  reg !! self = Some c ->
  hello_chain_id hi = get_chain_id ->
  hello_id hi <> id_ relay_ ->
  let reg' := receive_hello relay_ self hi reg in
  let twin := exists k ck, k <> self /\ reg !! k = Some ck /\
                           peer_id_ (sess ck) = hello_id hi in
  on_hello relay_ hi (sess c) =
    (tt, set_peer_id_ (hello_id hi) (sess c),
     [app_post task_check_for_redundant_connection]) /\
  peer_of reg' self = Some (hello_id hi) /\
  (forall k, k <> self -> reg' !! k = reg !! k) /\
  (twin -> is_open reg' self = false) /\
  (~ twin -> is_open reg' self = socket_open c) /\
  (is_open reg' self = true ->
     forall k ck, k <> self -> reg' !! k = Some ck ->
       peer_id_ (sess ck) <> hello_id hi).
Proof.
  intros Hc Hchain Hid reg' twin.
  set (c1 := set_sess (set_peer_id_ (hello_id hi) (sess c)) c).
  set (reg1 := <[self := c1]> reg).
  assert (Hreg' : reg' = run_check_for_redundant_connection self reg1)
    by (apply receive_hello_accepted; assumption).
  assert (Htwin : has_twin self reg1 <-> twin).
  { unfold has_twin, twin, reg1. split.
    - intros (k & ck & cself & Hne & Ek & Es & Heq).
      rewrite lookup_insert_ne in Ek by congruence.
      rewrite lookup_insert_eq in Es. injection Es as <-.
      exists k, ck. auto.
    - intros (k & ck & Hne & Ek & Heq). exists k, ck, c1.
      rewrite lookup_insert_ne by congruence. rewrite lookup_insert_eq. auto. }
  assert (Hcases : (twin /\ reg' = alter close_socket self reg1) \/
                   (~ twin /\ reg' = reg1)).
  { destruct (scan_spec self reg1) as [Hyes Hno].
    destruct (existsb (redundant_with self reg1) (elements (dom reg1))) eqn:E.
    - apply existsb_redundant_with in E. left. split; [tauto|].
      rewrite Hreg'. auto.
    - right. assert (~ has_twin self reg1)
        by (intros H; apply existsb_redundant_with in H; congruence).
      split; [tauto|]. rewrite Hreg'. auto. }
  assert (Hself : reg1 !! self = Some c1) by apply lookup_insert_eq.
  assert (Hother : forall k, k <> self -> reg' !! k = reg !! k).
  { intros k Hne. destruct Hcases as [[_ ->] | [_ ->]].
    - rewrite lookup_alter_ne by congruence. apply lookup_insert_ne. congruence.
    - apply lookup_insert_ne. congruence. }
  split.
  { rewrite on_hello_spec.
    apply Z.eqb_eq in Hchain. apply Z.eqb_neq in Hid. rewrite Hchain, Hid.
    reflexivity. }
  split.
  { unfold peer_of. destruct Hcases as [[_ ->] | [_ ->]].
    - rewrite lookup_alter_eq, Hself. reflexivity.
    - rewrite Hself. reflexivity. }
  split; [exact Hother|].
  assert (Hclosed : twin -> is_open reg' self = false).
  { intros Ht. unfold is_open. destruct Hcases as [[_ ->] | [Hn _]]; [|tauto].
    rewrite lookup_alter_eq, Hself. reflexivity. }
  split; [exact Hclosed|]. split.
  - intros Hn. unfold is_open. destruct Hcases as [[Ht _] | [_ ->]]; [tauto|].
    rewrite Hself. reflexivity.
  - intros Hopen k ck Hne Ek Heq. rewrite Hother in Ek by exact Hne.
    assert (Ht : twin) by (exists k, ck; auto).
    rewrite (Hclosed Ht) in Hopen. discriminate.
Qed.

End HelloProperties.

(** Session 2 receives the hello of peer 9, whom session 1 already serves. *)
Lemma hello_closes_redundant_self_witness :
  two_sessions !! 2 = Some (blank_conn 2 false) /\
  hello_chain_id hello_from_9 = get_chain_id (HostTypes := toy_types) /\
  hello_id hello_from_9 <> id_ toy_relay /\
  peer_of (receive_hello (HT := toy_types) toy_relay 2 hello_from_9 two_sessions) 2
    = Some 9.
Proof.
  assert (H1 : two_sessions !! 2 = Some (blank_conn 2 false)) by reflexivity.
  assert (H3 : hello_id hello_from_9 <> id_ toy_relay) by discriminate.
  split; [exact H1|]. split; [reflexivity|]. split; [exact H3|].
  apply (hello_closes_redundant_self (HT := toy_types) toy_relay 2 hello_from_9
           two_sessions (blank_conn 2 false) H1 eq_refl H3).
Defined.

(** C2 (counterexample). Session 1 is the older session of peer 9; session
    2, the newer one, receives the hello of peer 9. After the scan the older
    session is still open and the newer one is closed, both with peer id 9. *)
Lemma newer_session_is_closed :
  let reg' := receive_hello (HT := toy_types) toy_relay 2 hello_from_9 two_sessions in
  is_open two_sessions 1 = true /\ is_open two_sessions 2 = true /\
  is_open reg' 1 = true /\ is_open reg' 2 = false /\
  peer_of reg' 1 = Some 9 /\ peer_of reg' 2 = Some 9.
Proof. vm_compute. repeat split; reflexivity. Qed.

(** ** Construction of a session: the peer endpoint and the session id *)

Lemma string_length_append a b :
  String.length (String.append a b) = (String.length a + String.length b)%nat.
Proof. induction a as [|c a IH]; simpl; [reflexivity | f_equal; exact IH]. Qed.

Lemma substring_prefix a b :
  String.substring 0 (String.length a) (String.append a b) = a.
Proof.
  induction a as [|c a IH]; simpl.
  - destruct b; reflexivity.
  - f_equal. exact IH.
Qed.

Lemma substring_whole s : String.substring 0 (String.length s) s = s.
Proof. induction s as [|c s IH]; simpl; [reflexivity | f_equal; exact IH]. Qed.

Lemma substring_skip a b k m :
  String.substring (String.length a + k) m (String.append a b)
  = String.substring k m b.
Proof. induction a as [|c a IH]; simpl; [reflexivity | exact IH]. Qed.

Lemma find_char_append ch a b :
  find_char ch a = None ->
  find_char ch (String.append a (String ch b)) = Some (String.length a).
Proof.
  induction a as [|c a IH]; simpl; intros H.
  - destruct (Ascii.eqb_spec ch ch); [reflexivity | contradiction].
  - destruct (Ascii.eqb_spec c ch); [discriminate|].
    destruct (find_char ch a); [discriminate|].
    rewrite IH by reflexivity. reflexivity.
Qed.

(** A string splits at the first occurrence of a character. *)
Lemma find_char_split ch s i :
  find_char ch s = Some i ->
  exists a b, s = String.append a (String ch b) /\
              String.length a = i /\ find_char ch a = None.
Proof.
  revert i. induction s as [|c s IH]; simpl; intros i H; [discriminate|].
  destruct (Ascii.eqb_spec c ch) as [->|Hne].
  - injection H as <-. exists EmptyString, s. repeat split.
  - destruct (find_char ch s) as [j|] eqn:Ej; [|discriminate].
    injection H as <-. destruct (IH j eq_refl) as (a & b & -> & Hl & Hn).
    exists (String c a), b. simpl. rewrite Hl, Hn.
    destruct (Ascii.eqb_spec c ch); [contradiction|]. repeat split.
Qed.

(** The two [substr] calls of the constructor when the colon is found. *)
Lemma substr_host host c port :
  substr (String.append host (String c port)) 0 (Z.of_nat (String.length host))
  = Some host.
Proof.
  unfold substr, str_size. rewrite string_length_append. simpl String.length.
  assert (E0 : (Z.of_nat (String.length host + S (String.length port)) <? 0) = false)
    by (apply Z.ltb_ge; lia).
  rewrite E0.
  replace (Z.to_nat (Z.min (Z.of_nat (String.length host))
             (Z.of_nat (String.length host + S (String.length port)) - 0)))
    with (String.length host) by lia.
  change (Z.to_nat 0) with 0%nat. rewrite substring_prefix. reflexivity.
Qed.

Lemma substr_port host c port :
  str_size (String.append host (String c port)) < npos ->
  substr (String.append host (String c port))
    (wrap64 (Z.of_nat (String.length host) + 1))
    (str_size (String.append host (String c port)))
  = Some port.
Proof.
  unfold substr, str_size, npos, wrap64.
  rewrite string_length_append. simpl String.length. intros Hsize.
  rewrite Z.mod_small by lia.
  assert (E1 : (Z.of_nat (String.length host + S (String.length port))
                <? Z.of_nat (String.length host) + 1) = false)
    by (apply Z.ltb_ge; lia).
  rewrite E1.
  replace (Z.to_nat (Z.of_nat (String.length host) + 1))
    with (String.length host + 1)%nat by lia.
  replace (Z.to_nat (Z.min (Z.of_nat (String.length host + S (String.length port)))
             (Z.of_nat (String.length host + S (String.length port))
              - (Z.of_nat (String.length host) + 1))))
    with (String.length port) by lia.
  rewrite substring_skip. simpl String.substring.
  rewrite substring_whole. reflexivity.
Qed.

(** A [substr] from the start with a count that reaches the end. *)
Lemma substr_whole s n : str_size s <= n -> substr s 0 n = Some s.
Proof.
  unfold substr, str_size. intros Hn.
  assert (E0 : (Z.of_nat (String.length s) <? 0) = false) by (apply Z.ltb_ge; lia).
  rewrite E0.
  replace (Z.to_nat (Z.min n (Z.of_nat (String.length s) - 0)))
    with (String.length s) by lia.
  change (Z.to_nat 0) with 0%nat. rewrite substring_whole. reflexivity.
Qed.

(** X1. The constructor of an outgoing session splits ["host:port"] at its
    first colon: for a host without a colon, the host is what precedes the
    colon and the port is all that follows it, further colons included. *)
Theorem outgoing_endpoint_host_port host port :
  find_char ":"%char host = None ->
  str_size (String.append host (String ":"%char port)) < npos ->
  outgoing_endpoint (String.append host (String ":"%char port)) =
    Some {| peer_ := String.append host (String ":"%char port);
            remote_host_ := host; remote_port_ := port |}.
Proof.
  intros Hfind Hsize. unfold outgoing_endpoint, str_find.
  rewrite (find_char_append _ _ _ Hfind).
  rewrite substr_host, (substr_port _ _ _ Hsize). reflexivity.
Qed.

(** X2. A peer string without a colon: [find] returns [npos], [npos + 1]
    wraps to 0, and both the host and the port are the whole string. *)
Theorem outgoing_endpoint_without_colon peer :
  find_char ":"%char peer = None ->
  str_size peer < npos ->
  outgoing_endpoint peer =
    Some {| peer_ := peer; remote_host_ := peer; remote_port_ := peer |}.
Proof.
  intros Hfind Hsize. unfold outgoing_endpoint, str_find. rewrite Hfind.
  change (wrap64 (npos + 1)) with 0.
  rewrite (substr_whole peer npos) by lia.
  rewrite (substr_whole peer (str_size peer)) by lia.
  reflexivity.
Qed.

(** X3. The constructor of an outgoing session raises on no peer string:
    neither [substr] is called past the end, and the host and the port it
    keeps are never longer than the peer string. *)
Theorem outgoing_endpoint_never_raises peer :
  str_size peer < npos ->
  exists host port,
    outgoing_endpoint peer =
      Some {| peer_ := peer; remote_host_ := host; remote_port_ := port |} /\
    str_size host <= str_size peer /\ str_size port <= str_size peer.
Proof.
  intros Hsize. unfold outgoing_endpoint, str_find.
  destruct (find_char ":"%char peer) as [i|] eqn:Ef.
  - destruct (find_char_split _ _ _ Ef) as (a & b & -> & <- & _).
    exists a, b. rewrite substr_host, (substr_port _ _ _ Hsize).
    split; [reflexivity|].
    unfold str_size. rewrite string_length_append. simpl String.length. lia.
  - exists peer, peer. change (wrap64 (npos + 1)) with 0.
    rewrite (substr_whole peer npos) by lia.
    rewrite (substr_whole peer (str_size peer)) by lia.
    split; [reflexivity | lia].
Qed.

Lemma outgoing_endpoint_host_port_witness :
  find_char ":"%char "localhost" = None /\
  str_size "localhost:8899" < npos /\
  outgoing_endpoint "localhost:8899" =
    Some {| peer_ := "localhost:8899";
            remote_host_ := "localhost"; remote_port_ := "8899" |}.
Proof.
  split; [reflexivity|]. split; [reflexivity|].
  apply (outgoing_endpoint_host_port "localhost" "8899"); reflexivity.
Defined.

Lemma outgoing_endpoint_without_colon_witness :
  find_char ":"%char "localhost" = None /\
  str_size "localhost" < npos /\
  outgoing_endpoint "localhost" =
    Some {| peer_ := "localhost";
            remote_host_ := "localhost"; remote_port_ := "localhost" |}.
Proof.
  split; [reflexivity|]. split; [reflexivity|].
  apply (outgoing_endpoint_without_colon "localhost"); reflexivity.
Defined.

Lemma outgoing_endpoint_never_raises_witness :
  str_size "a:b:c" < npos /\
  exists host port,
    outgoing_endpoint "a:b:c" =
      Some {| peer_ := "a:b:c"; remote_host_ := host; remote_port_ := port |} /\
    str_size host <= str_size "a:b:c" /\ str_size port <= str_size "a:b:c".
Proof.
  split; [reflexivity|].
  apply (outgoing_endpoint_never_raises "a:b:c"). reflexivity.
Defined.

Lemma construct_sessions_from n : forall count,
  0 <= count -> count + Z.of_nat n <= int_max ->
  exists ids,
    construct_sessions n count = Some (ids, count + Z.of_nat n) /\
    length ids = n /\
    (forall i id, ids !! i = Some id -> id = count + 1 + Z.of_nat i).
Proof.
  induction n as [|n IH]; intros count H0 Hmax.
  - exists []. cbn. split; [f_equal; f_equal; lia|]. split; [reflexivity|].
    intros i id H. discriminate.
  - cbn [construct_sessions]. unfold next_session_id.
    assert (E : (count <? int_max) = true) by (apply Z.ltb_lt; lia).
    rewrite E.
    destruct (IH (count + 1) ltac:(lia) ltac:(lia)) as (ids & -> & Hlen & Hids).
    exists (count + 1 :: ids). split; [f_equal; f_equal; lia|].
    split; [cbn; lia|].
    intros [|i] id H; cbn in H.
    + injection H as <-. lia.
    + rewrite (Hids i id H). lia.
Qed.

(** X4. Sessions constructed one after the other, as long as the counter
    does not overflow, get the ids that follow the counter, one by one: the
    ids are pairwise distinct and increase in the order of construction. *)
Theorem session_ids_distinct n count :
  0 <= count -> count + Z.of_nat n <= int_max ->
  exists ids,
    construct_sessions n count = Some (ids, count + Z.of_nat n) /\
    length ids = n /\
    (forall i id, ids !! i = Some id -> id = count + 1 + Z.of_nat i) /\
    NoDup ids.
Proof.
  intros H0 Hmax.
  destruct (construct_sessions_from n count H0 Hmax) as (ids & E & Hlen & Hids).
  exists ids. split; [exact E|]. split; [exact Hlen|]. split; [exact Hids|].
  apply NoDup_alt. intros i j id Hi Hj.
  pose proof (Hids i id Hi). pose proof (Hids j id Hj). lia.
Qed.

Lemma session_ids_distinct_witness :
  0 <= 0 /\ 0 + Z.of_nat 3 <= int_max /\
  exists ids,
    construct_sessions 3 0 = Some (ids, 0 + Z.of_nat 3) /\
    length ids = 3%nat /\
    (forall i id, ids !! i = Some id -> id = 0 + 1 + Z.of_nat i) /\
    NoDup ids.
Proof.
  assert (H0 : 0 <= 0) by lia.
  assert (H1 : 0 + Z.of_nat 3 <= int_max) by (vm_compute; discriminate).
  split; [exact H0|]. split; [exact H1|].
  exact (session_ids_distinct 3 0 H0 H1).
Defined.

(** ** The queue of application messages *)

Section QueueProperties.
Context `{CD : Codec}.

Lemma buffer_all_spec ms : forall s,
  buffer_all ms s = (tt, set_msg_buffer_ (msg_buffer_ s ++ ms) s, []).
Proof.
  induction ms as [|m ms IH]; intros s.
  - cbn. rewrite app_nil_r. destruct s; reflexivity.
  - cbn [buffer_all]. unfold bind, buffer_send, modify. rewrite IH.
    cbn. rewrite <- app_assoc. reflexivity.
Qed.

Lemma write_completions_drain nows : forall s,
  quiet nows s ->
  writes (effects (write_completions nows s))
    = map pack_message (take (length nows) (msg_buffer_ s)) /\
  msg_buffer_ (final (write_completions nows s))
    = drop (length nows) (msg_buffer_ s).
Proof.
  induction nows as [|now nows IH]; intros s ([Hr Hs] & Hp & Hall).
  - cbn. rewrite take_0, drop_0. split; reflexivity.
  - cbn [write_completions]. rewrite effects_bind, final_bind, writes_app.
    apply Forall_cons in Hall as [Hnow Hall].
    rewrite on_write_unfold, pump_spec. cbn [is_sending nonempty state_ out_buffer_
      set_out_buffer_ set_state_ recv_remote_hello_ sent_remote_hello_
      last_recv_ping_ last_sent_ping_ msg_buffer_].
    rewrite Hr, Hs, Hp. cbn [negb orb].
    change (sha256_zero =? sha256_zero) with true. cbn [negb].
    apply Z.ltb_lt in Hnow as Hnow'. rewrite Hnow'. cbn [negb].
    destruct (msg_buffer_ s) as [|m q] eqn:Eq.
    + cbn [effects final result fst snd writes omap app].
      destruct (IH (set_out_buffer_ [] (set_state_ idle_state s))) as [Hw Hf].
      { repeat split; assumption. }
      cbn [msg_buffer_ set_out_buffer_ set_state_] in Hw, Hf.
      rewrite Eq in Hw, Hf. rewrite Hw, Hf, take_nil, drop_nil.
      split; reflexivity.
    + cbn [effects final result fst snd].
      destruct (IH (set_msg_buffer_ q
                      (set_state_ sending_state
                         (set_out_buffer_ (pack_message m)
                            (set_out_buffer_ [] (set_state_ idle_state s))))))
        as [Hw Hf].
      { repeat split; assumption. }
      cbn [msg_buffer_ set_msg_buffer_] in Hw, Hf.
      rewrite Hw, Hf. cbn. split; reflexivity.
Qed.

(** X5. The queue is served in order: after the relay has queued messages,
    successive write completions on a session with both hellos exchanged, no
    ping to answer and its last ping less than three seconds old write the
    queued messages one per completion, oldest first, and leave the others in
    the queue. *)
Theorem queue_is_first_in_first_out ms nows s :
  quiet nows s ->
  let r := (buffer_all ms ;; write_completions nows) s in
  writes (effects r)
    = map pack_message (take (length nows) (msg_buffer_ s ++ ms)) /\
  msg_buffer_ (final r) = drop (length nows) (msg_buffer_ s ++ ms).
Proof.
  intros Hq r. subst r.
  rewrite effects_bind, final_bind, buffer_all_spec.
  cbn [effects final result fst snd app].
  apply (write_completions_drain nows (set_msg_buffer_ (msg_buffer_ s ++ ms) s)).
  exact Hq.
Qed.

End QueueProperties.

Lemma queue_is_first_in_first_out_witness :
  let s := blank_session 1 true in
  let r := (buffer_all [queued_hello; seed_3; queued_hello] ;;
            write_completions (CD := toy_codec) [1000; 2000]) s in
  quiet [1000; 2000] s /\
  writes (effects r) = [[Byte.x00]; [Byte.x03; Byte.x03]] /\
  msg_buffer_ (final r) = [queued_hello].
Proof.
  intros s r.
  assert (Hq : quiet [1000; 2000] s).
  { split; [split; reflexivity|]. split; [reflexivity|].
    repeat constructor. }
  split; [exact Hq|].
  exact (queue_is_first_in_first_out (CD := toy_codec)
           [queued_hello; seed_3; queued_hello] [1000; 2000] s Hq).
Defined.

(** ** Ping and pong between two sessions *)

Section PingPongProperties.
Context `{CD : Codec}.
Variable relay_ : relay.

Lemma on_ping_spec now p s :
  on_ping now p s =
    (tt, set_last_recv_ping_time_ now (set_last_recv_ping_ p s),
     [app_post (task_set_peer_head (ping_head p))]).
Proof. reflexivity. Qed.

(** X6. A ping makes its round trip. A session due to ping writes a ping
    stamped with the time and its hash and keeps it as the ping in flight;
    the peer's session, idle with both hellos exchanged, answers it at once
    with one pong echoing the code, whatever is in its queue, and holds no
    ping to answer afterwards; on that pong the first session closes nothing
    and clears the code of its ping in flight. The hash of the time must not
    be the zero digest, which stands for no ping. *)
Theorem ping_round_trip now now' now'' a b a' :
  operational a -> state_ a = idle_state -> out_buffer_ a = [] ->
  ping_code (last_recv_ping_ a) = sha256_zero ->
  ping_code (last_sent_ping_ a) = sha256_zero ->
  three_seconds <= now - ping_sent (last_sent_ping_ a) ->
  sha256_hash now <> sha256_zero ->
  operational b -> state_ b = idle_state -> out_buffer_ b = [] ->
  let p := {| ping_sent := now; ping_code := sha256_hash now;
              ping_head := local_head_ a |} in
  let q := {| pong_sent := now'; pong_code := sha256_hash now |} in
  let ra := maybe_send_next_message now a in
  let rb := on_message relay_ now' (msg_ping p) b in
  last_sent_ping_ a' = last_sent_ping_ (final ra) ->
  (effects ra = [async_write (pack_message (msg_ping p))] /\
   last_sent_ping_ (final ra) = p) /\
  (effects rb = [app_post (task_set_peer_head (local_head_ a));
                 async_write (pack_message (msg_pong q))] /\
   ping_code (last_recv_ping_ (final rb)) = sha256_zero /\
   msg_buffer_ (final rb) = msg_buffer_ b) /\
  (on_pong q a' = (tt, set_last_sent_ping_ (reset_code (last_sent_ping_ a')) a', []) /\
   closes (effects (on_message relay_ now'' (msg_pong q) a')) = false).
Proof.
  intros [Har Has] Hai Hao Harp Hasp Hdue Hhash [Hbr Hbs] Hbi Hbo p q ra rb Ha'.
  assert (Era : ra = (tt,
            set_state_ sending_state
              (set_out_buffer_ (pack_message (msg_ping p)) (set_last_sent_ping_ p a)),
            [async_write (pack_message (msg_ping p))])).
  { subst ra. rewrite pump_spec, Hai, Hao, Har, Has.
    cbn [is_sending nonempty negb orb].
    apply Z.eqb_eq in Harp, Hasp. apply Z.ltb_ge in Hdue.
    rewrite Harp, Hdue, Hasp. reflexivity. }
  assert (Erb : rb = (tt,
            set_last_recv_ping_ (reset_code p)
              (set_state_ sending_state
                 (set_out_buffer_ (pack_message (msg_pong q))
                    (set_last_recv_ping_time_ now' (set_last_recv_ping_ p b)))),
            [app_post (task_set_peer_head (local_head_ a));
             async_write (pack_message (msg_pong q))])).
  { subst rb. cbn [on_message]. unfold bind at 1. rewrite on_ping_spec, pump_spec.
    cbn [is_sending nonempty state_ out_buffer_ recv_remote_hello_
           sent_remote_hello_ last_recv_ping_ set_last_recv_ping_time_
           set_last_recv_ping_ ping_code p ping_head].
    rewrite Hbi, Hbo, Hbr, Hbs. cbn [is_sending nonempty negb orb].
    apply Z.eqb_neq in Hhash. rewrite Hhash. reflexivity. }
  rewrite Era in *. rewrite Erb. cbn [effects final fst snd] in *.
  split; [split; reflexivity|]. split; [repeat split|].
  assert (Hcode : pong_code q = ping_code (last_sent_ping_ a'))
    by (rewrite Ha'; reflexivity).
  split.
  - rewrite on_pong_spec. apply Z.eqb_eq in Hcode. rewrite Hcode. reflexivity.
  - cbn [on_message]. rewrite effects_bind, closes_app, pump_never_closes, orb_false_r.
    rewrite on_pong_spec. apply Z.eqb_eq in Hcode. rewrite Hcode. reflexivity.
Qed.

End PingPongProperties.

Lemma ping_round_trip_witness :
  let a := blank_session 1 true in
  let b := set_msg_buffer_ [queued_hello] (blank_session 2 true) in
  let ra := maybe_send_next_message (CD := toy_codec) 4000000 a in
  let rb := on_message (CD := toy_codec) toy_relay 4000100
              (msg_ping {| ping_sent := 4000000; ping_code := 4000001;
                           ping_head := local_head_ a |}) b in
  effects ra = [async_write [Byte.x01]] /\
  writes (effects rb) = [[Byte.x02; Byte.x00]] /\
  msg_buffer_ (final rb) = [queued_hello] /\
  closes (effects (on_message (CD := toy_codec) toy_relay 4000200
                     (msg_pong {| pong_sent := 4000100; pong_code := 4000001 |})
                     (final ra))) = false.
Proof.
  intros a b ra rb.
  assert (Ha : operational a) by (split; reflexivity).
  assert (Hb : operational b) by (split; reflexivity).
  assert (Hh : sha256_hash (HostTypes := toy_types) 4000000 <> sha256_zero)
    by discriminate.
  assert (Hd : three_seconds <= 4000000 - ping_sent (last_sent_ping_ a))
    by (vm_compute; discriminate).
  destruct (ping_round_trip (CD := toy_codec) toy_relay 4000000 4000100 4000200
              a b (final ra) Ha eq_refl eq_refl eq_refl eq_refl Hd Hh
              Hb eq_refl eq_refl eq_refl)
    as ((H1 & _) & (H2 & _ & H3) & (_ & H4)).
  split; [exact H1|]. split; [|split; [exact H3 | exact H4]].
  exact (f_equal writes H2).
Defined.

(** ** Hellos the session refuses, and scans that meet *)

Section RefusalProperties.
Context `{CD : Codec}.
Variable relay_ : relay.

(** X7. A hello from another chain, or carrying the relay's own id, is
    refused: the session closes its socket, keeps the peer id it had and
    posts no scan; in the registry only that session changes. *)
Theorem refused_hello_closes self hi (reg : gmap Z conn) c :
  reg !! self = Some c ->
  hello_chain_id hi <> get_chain_id \/ hello_id hi = id_ relay_ ->
  on_hello relay_ hi (sess c) = (tt, sess c, [socket_close]) /\
  receive_hello relay_ self hi reg = <[self := close_socket c]> reg /\
  peer_of (receive_hello relay_ self hi reg) self = Some (peer_id_ (sess c)) /\
  is_open (receive_hello relay_ self hi reg) self = false.
Proof.
  intros Hc Hbad.
  assert (E : on_hello relay_ hi (sess c) = (tt, sess c, [socket_close])).
  { rewrite on_hello_spec. destruct Hbad as [Hchain | Hid].
    - apply Z.eqb_neq in Hchain. rewrite Hchain. reflexivity.
    - apply Z.eqb_eq in Hid. rewrite Hid.
      destruct (negb (hello_chain_id hi =? get_chain_id)); reflexivity. }
  assert (R : receive_hello relay_ self hi reg = <[self := close_socket c]> reg).
  { unfold receive_hello, run_on. rewrite Hc. unfold run. rewrite E. reflexivity. }
  split; [exact E|]. split; [exact R|]. rewrite R.
  unfold peer_of, is_open. rewrite lookup_insert_eq. split; reflexivity.
Qed.

(** X8. The scan does not look at sockets: a session whose twin is already
    closed is closed all the same. When two registered sessions have the same
    peer id and each runs its scan, both end up closed, and every other
    session is as it was. *)
Theorem twin_scans_close_both a b (reg : gmap Z conn) ca cb :
  a <> b ->
  reg !! a = Some ca -> reg !! b = Some cb ->
  peer_id_ (sess ca) = peer_id_ (sess cb) ->
  let reg' := run_check_for_redundant_connection b
                (run_check_for_redundant_connection a reg) in
  is_open reg' a = false /\ is_open reg' b = false /\
  (forall k, k <> a -> k <> b -> reg' !! k = reg !! k).
Proof.
  intros Hab Ha Hb Hpeer reg'.
  assert (E1 : run_check_for_redundant_connection a reg = alter close_socket a reg).
  { apply scan_spec. exists b, cb, ca. auto. }
  assert (E2 : reg' = alter close_socket b (alter close_socket a reg)).
  { subst reg'. rewrite E1. apply scan_spec. exists a, (close_socket ca), cb.
    rewrite lookup_alter_eq, Ha, lookup_alter_ne, Hb by exact Hab. auto. }
  rewrite E2. unfold is_open. repeat split.
  - rewrite lookup_alter_ne, lookup_alter_eq, Ha by congruence. reflexivity.
  - rewrite lookup_alter_eq, lookup_alter_ne, Hb by exact Hab. reflexivity.
  - intros k Hka Hkb. rewrite !lookup_alter_ne by congruence. reflexivity.
Qed.

End RefusalProperties.

Lemma refused_hello_closes_witness :
  two_sessions !! 2 = Some (blank_conn 2 false) /\
  (hello_chain_id hello_from_self <> get_chain_id (HostTypes := toy_types) \/
   hello_id hello_from_self = id_ toy_relay) /\
  is_open (receive_hello (HT := toy_types) toy_relay 2 hello_from_self two_sessions) 2
    = false.
Proof.
  assert (H1 : two_sessions !! 2 = Some (blank_conn 2 false)) by reflexivity.
  assert (H2 : hello_chain_id hello_from_self <> get_chain_id (HostTypes := toy_types) \/
               hello_id hello_from_self = id_ toy_relay) by (right; reflexivity).
  split; [exact H1|]. split; [exact H2|].
  apply (refused_hello_closes (HT := toy_types) toy_relay 2 hello_from_self
           two_sessions (blank_conn 2 false) H1 H2).
Defined.

Lemma twin_scans_close_both_witness :
  let reg' := run_check_for_redundant_connection 2
                (run_check_for_redundant_connection 1 twin_sessions) in
  1 <> 2 /\
  is_open twin_sessions 1 = true /\ is_open twin_sessions 2 = true /\
  is_open reg' 1 = false /\ is_open reg' 2 = false.
Proof.
  intros reg'.
  assert (Hne : 1 <> 2) by discriminate.
  split; [exact Hne|]. split; [reflexivity|]. split; [reflexivity|].
  destruct (twin_scans_close_both (HT := toy_types) 1 2 twin_sessions
              (set_sess (set_peer_id_ 9 (blank_session 1 false)) (blank_conn 1 false))
              (set_sess (set_peer_id_ 9 (blank_session 2 false)) (blank_conn 2 false))
              Hne eq_refl eq_refl eq_refl) as (H1 & H2 & _).
  split; [exact H1 | exact H2].
Defined.

(** ** The read loop *)

Section LoopProperties.
Context `{CD : Codec}.
Variable relay_ : relay.

Lemma reads_app es1 es2 : reads (es1 ++ es2) = reads es1 ++ reads es2.
Proof. unfold reads. apply omap_app. Qed.

Lemma read_posts_app es1 es2 :
  read_posts (es1 ++ es2) = read_posts es1 ++ read_posts es2.
Proof. unfold read_posts. apply omap_app. Qed.

Lemma apply_effects_reads es : forall c,
  reads_in_flight (apply_effects es c)
  = (reads_in_flight c + length (reads es))%nat.
Proof.
  unfold apply_effects.
  induction es as [|e es IH]; intros c; [cbn; lia|].
  cbn [foldl]. rewrite IH. unfold reads. destruct e; cbn; lia.
Qed.

Lemma run_reads {A} (m : M A) c :
  reads_in_flight (run m c)
  = (reads_in_flight c + length (reads (effects (m (sess c)))))%nat.
Proof. unfold run. rewrite apply_effects_reads. reflexivity. Qed.

Lemma pump_no_reads now s :
  reads (effects (maybe_send_next_message now s)) = [] /\
  read_posts (effects (maybe_send_next_message now s)) = [].
Proof.
  destruct (pump_effects now s) as [-> | [buf ->]]; split; reflexivity.
Qed.

(** The dispatch starts no read and posts none. *)
Lemma on_message_no_reads now msg s :
  reads (effects (on_message relay_ now msg s)) = [] /\
  read_posts (effects (on_message relay_ now msg s)) = [].
Proof.
  destruct msg as [hi | p | p | cs | b | ia]; cbn [on_message];
    try (split; reflexivity);
    rewrite effects_bind, reads_app, read_posts_app;
    match goal with
    | |- context [maybe_send_next_message now ?s0] =>
        destruct (pump_no_reads now s0) as [-> ->]
    end; rewrite !app_nil_r.
  - rewrite on_hello_spec.
    destruct (negb (hello_chain_id hi =? get_chain_id)); [split; reflexivity|].
    destruct (hello_id hi =? id_ relay_); split; reflexivity.
  - split; reflexivity.
  - rewrite on_pong_spec.
    destruct (pong_code p =? ping_code (last_sent_ping_ s)); split; reflexivity.
Qed.

(** The reads a handler starts and the reads it posts: the posted
    [do_read] starts one read; a successful read whose in-buffer decodes
    posts one; nothing else starts or posts a read. *)
Lemma handler_reads e s :
  length (reads (effects (handler relay_ e s)))
    = match e with ev_app_do_read => 1%nat | _ => 0%nat end /\
  length (read_posts (effects (handler relay_ e s)))
    = match e with
      | ev_read _ ec_success frame =>
          match unpack_message (in_buffer_ s ++ frame) with
          | Some _ => 1%nat
          | None => 0%nat
          end
      | _ => 0%nat
      end.
Proof.
  destruct e as [now ec frame | now ec | | msg | now]; cbn [handler].
  - rewrite effects_bind, reads_app, read_posts_app.
    destruct ec; try (split; reflexivity).
    cbn [modify effects final result fst snd app].
    rewrite on_read_unfold. cbn [in_buffer_ set_in_buffer_].
    destruct (unpack_message (in_buffer_ s ++ frame)) as [[msg n]|];
      [|split; reflexivity].
    cbv zeta. cbn [effects snd]. rewrite reads_app, read_posts_app.
    match goal with
    | |- context [on_message relay_ now msg ?s0] =>
        destruct (on_message_no_reads now msg s0) as [-> ->]
    end.
    split; reflexivity.
  - destruct ec; try (split; reflexivity).
    rewrite on_write_unfold.
    match goal with
    | |- context [maybe_send_next_message now ?s0] =>
        destruct (pump_no_reads now s0) as [-> ->]
    end.
    split; reflexivity.
  - split; reflexivity.
  - split; reflexivity.
  - destruct (pump_no_reads now s) as [-> ->]. split; reflexivity.
Qed.

Lemma step_reads e c c' :
  step relay_ e c = Some c' ->
  reads_in_flight c'
  = (match e with
     | ev_read _ _ _ => Nat.pred (reads_in_flight c)
     | _ => reads_in_flight c
     end + length (reads (effects (handler relay_ e (sess c)))))%nat /\
  match e with ev_read _ _ _ => (0 < reads_in_flight c)%nat | _ => True end.
Proof.
  destruct e as [now ec frame | now ec | | msg | now]; unfold step; intros H.
  - destruct (0 <? reads_in_flight c)%nat eqn:E; [|discriminate].
    apply Nat.ltb_lt in E. injection H as <-. rewrite run_reads. split; [reflexivity | exact E].
  - destruct (0 <? writes_in_flight c)%nat; [|discriminate].
    injection H as <-. rewrite run_reads. split; [reflexivity | exact I].
  - injection H as <-. rewrite run_reads. split; [reflexivity | exact I].
  - injection H as <-. rewrite run_reads. split; [reflexivity | exact I].
  - injection H as <-. rewrite run_reads. split; [reflexivity | exact I].
Qed.

Lemma loop_step_invariant e l l' :
  loop_invariant l -> loop_step relay_ e l = Some l' -> loop_invariant l'.
Proof.
  unfold loop_invariant, loop_step. intros Hinv H.
  destruct (handler_reads e (sess (loop_conn l))) as [Hr Hp].
  destruct e as [now ec frame | now ec | | msg | now].
  3:{ destruct (0 <? waiting_reads l)%nat eqn:Ew; [|discriminate].
      apply Nat.ltb_lt in Ew.
      destruct (step relay_ ev_app_do_read (loop_conn l)) as [c'|] eqn:Es; [|discriminate].
      injection H as <-. cbn [loop_conn waiting_reads].
      destruct (step_reads _ _ _ Es) as [-> _]. cbn [handler] in *; rewrite ?Hr, ?Hp. lia. }
  all: match type of H with
       | match step relay_ ?e _ with _ => _ end = _ =>
           destruct (step relay_ e (loop_conn l)) as [c'|] eqn:Es; [|discriminate]
       end;
    injection H as <-; cbn [loop_conn waiting_reads];
    destruct (step_reads _ _ _ Es) as [-> Hpos]; cbn [handler] in *; rewrite ?Hr, ?Hp;
    try lia.
  destruct ec; try lia.
  destruct (unpack_message (in_buffer_ (sess (loop_conn l)) ++ frame)); lia.
Qed.

Lemma loop_run_invariant es : forall l l',
  loop_invariant l -> loop_run relay_ es l = Some l' -> loop_invariant l'.
Proof.
  induction es as [|e es IH]; intros l l' Hinv H; cbn [loop_run] in H.
  - injection H as <-. exact Hinv.
  - destruct (loop_step relay_ e l) as [l1|] eqn:E; [|discriminate].
    exact (IH l1 l' (loop_step_invariant e l l1 Hinv E) H).
Qed.

(** X9. At most one read is outstanding on a session at any time, in
    flight on the websocket or waiting as a posted [do_read] in the queue of
    the application event loop: a read is re-armed once per completed read. *)
Theorem one_read_outstanding c es l :
  fresh c ->
  loop_run relay_ es (loop_start relay_ c) = Some l ->
  (reads_in_flight (loop_conn l) + waiting_reads l <= 1)%nat.
Proof.
  intros [_ Hr] H. apply (loop_run_invariant es (loop_start relay_ c) l); [|exact H].
  unfold loop_invariant, loop_start. cbn [loop_conn waiting_reads].
  rewrite run_reads, Hr. rewrite start_spec. cbn. lia.
Qed.

Lemma loop_stopped_step e l l' :
  reads_in_flight (loop_conn l) = 0%nat -> waiting_reads l = 0%nat ->
  loop_step relay_ e l = Some l' ->
  reads_in_flight (loop_conn l') = 0%nat /\ waiting_reads l' = 0%nat.
Proof.
  unfold loop_step. intros H0 W0 H.
  destruct (handler_reads e (sess (loop_conn l))) as [Hr Hp].
  destruct e as [now ec frame | now ec | | msg | now].
  1:{ unfold step in H. rewrite H0 in H. discriminate. }
  2:{ rewrite W0 in H. discriminate. }
  all: match type of H with
       | match step relay_ ?e _ with _ => _ end = _ =>
           destruct (step relay_ e (loop_conn l)) as [c'|] eqn:Es; [|discriminate]
       end;
    injection H as <-; cbn [loop_conn waiting_reads];
    destruct (step_reads _ _ _ Es) as [-> _]; cbn [handler] in *; rewrite ?Hr, ?Hp; lia.
Qed.

(** X10. A read that completes with an error, or whose frame does not
    decode, ends the read loop: from then on no read is in flight and none
    waits in the queue, whatever happens on the session. *)
Theorem failed_read_ends_read_loop now ec frame l l1 es l2 :
  (reads_in_flight (loop_conn l) + waiting_reads l <= 1)%nat ->
  ec <> ec_success \/
    unpack_message (in_buffer_ (sess (loop_conn l)) ++ frame) = None ->
  loop_step relay_ (ev_read now ec frame) l = Some l1 ->
  loop_run relay_ es l1 = Some l2 ->
  reads_in_flight (loop_conn l2) = 0%nat /\ waiting_reads l2 = 0%nat.
Proof.
  intros Hinv Hfail H1 H2.
  assert (Hstop : reads_in_flight (loop_conn l1) = 0%nat /\ waiting_reads l1 = 0%nat).
  { unfold loop_step in H1.
    destruct (handler_reads (ev_read now ec frame) (sess (loop_conn l))) as [Hr Hp].
    destruct (step relay_ (ev_read now ec frame) (loop_conn l)) as [c'|] eqn:Es;
      [|discriminate].
    injection H1 as <-. cbn [loop_conn waiting_reads].
    destruct (step_reads _ _ _ Es) as [-> Hpos]. cbn [handler] in *; rewrite ?Hr, ?Hp.
    destruct Hfail as [Hec | Hdec].
    - destruct ec; [contradiction | lia | lia].
    - rewrite Hdec. destruct ec; lia. }
  clear H1 Hinv Hfail. revert l1 Hstop H2.
  induction es as [|e es IH]; intros l1 [H0 W0] H2; cbn [loop_run] in H2.
  - injection H2 as <-. split; assumption.
  - destruct (loop_step relay_ e l1) as [l'|] eqn:E; [|discriminate].
    exact (IH l' (loop_stopped_step e l1 l' H0 W0 E) H2).
Qed.

End LoopProperties.

Lemma one_read_outstanding_witness :
  let es := [ev_read 1000 ec_success [Byte.x02; Byte.x00]; ev_app_do_read] in
  fresh (blank_conn 1 true) /\
  exists l,
    loop_run (CD := toy_codec) toy_relay es
      (loop_start (CD := toy_codec) toy_relay (blank_conn 1 true))
      = Some l /\
    (reads_in_flight (loop_conn l) + waiting_reads l <= 1)%nat.
Proof.
  intros es.
  assert (Hf : fresh (blank_conn 1 true)) by (split; reflexivity).
  split; [exact Hf|].
  eexists. split; [reflexivity|].
  apply (one_read_outstanding (CD := toy_codec) toy_relay (blank_conn 1 true) es _ Hf).
  reflexivity.
Defined.

Lemma failed_read_ends_read_loop_witness :
  let l := loop_start (CD := toy_codec) toy_relay (blank_conn 1 true) in
  let es := [ev_buffer_send queued_hello; ev_pump 2000] in
  (reads_in_flight (loop_conn l) + waiting_reads l <= 1)%nat /\
  exists l1 l2,
    loop_step (CD := toy_codec) toy_relay (ev_read 1000 ec_success [Byte.x09]) l
      = Some l1 /\
    loop_run (CD := toy_codec) toy_relay es l1 = Some l2 /\
    reads_in_flight (loop_conn l2) = 0%nat /\ waiting_reads l2 = 0%nat.
Proof.
  intros l es.
  assert (Hinv : (reads_in_flight (loop_conn l) + waiting_reads l <= 1)%nat)
    by (cbn; lia).
  split; [exact Hinv|].
  eexists. eexists. split; [reflexivity|]. split; [reflexivity|].
  apply (failed_read_ends_read_loop (CD := toy_codec) toy_relay 1000 ec_success
           [Byte.x09] l _ es _ Hinv (or_intror eq_refl) eq_refl eq_refl).
Defined.

(** ** Writes after a failure, the hello flags and the ping in flight *)

Section LifeProperties.
Context `{CD : Codec}.
Variable relay_ : relay.

Lemma apply_effects_closed es : forall c,
  socket_open c = false -> socket_open (apply_effects es c) = false.
Proof.
  unfold apply_effects.
  induction es as [|e es IH]; intros c H; [exact H|].
  cbn [foldl]. apply IH. destruct e; cbn; auto.
Qed.

(** No step opens a socket. *)
Lemma step_closed e c c' :
  socket_open c = false -> step relay_ e c = Some c' -> socket_open c' = false.
Proof.
  intros H Hs. unfold step in Hs.
  destruct e as [now ec frame | now ec | | msg | now].
  - destruct (0 <? reads_in_flight c)%nat; [|discriminate].
    injection Hs as <-. apply apply_effects_closed. exact H.
  - destruct (0 <? writes_in_flight c)%nat; [|discriminate].
    injection Hs as <-. apply apply_effects_closed. exact H.
  - injection Hs as <-. apply apply_effects_closed. exact H.
  - injection Hs as <-. apply apply_effects_closed. exact H.
  - injection Hs as <-. apply apply_effects_closed. exact H.
Qed.

Lemma write_dead_step e c c' :
  write_dead c -> step relay_ e c = Some c' -> write_dead c'.
Proof.
  intros (Hw & Hc & Hst) Hs.
  split; [|split; [exact (step_closed e c c' Hc Hs)|]].
  - pose proof (handler_runs_pump relay_ e (sess c)) as Hh.
    destruct e as [now ec frame | now ec | | msg | now]; unfold step in Hs.
    2:{ rewrite Hw in Hs. discriminate. }
    1: destruct (0 <? reads_in_flight c)%nat; [|discriminate].
    all: injection Hs as <-; rewrite run_writes;
      cbn [complete_read writes_in_flight sess handler] in *; rewrite Hw;
      (destruct Hh as [(now' & s0 & H0 & Hwr & _) | (Hwr & _)];
       [ rewrite Hwr, (pump_gate now' s0) by (left; congruence); reflexivity
       | rewrite Hwr; reflexivity ]).
  - pose proof (handler_runs_pump relay_ e (sess c)) as Hh.
    destruct e as [now ec frame | now ec | | msg | now]; unfold step in Hs.
    2:{ rewrite Hw in Hs. discriminate. }
    1: destruct (0 <? reads_in_flight c)%nat; [|discriminate].
    all: injection Hs as <-; rewrite run_sess;
      cbn [complete_read writes_in_flight sess handler] in *;
      (destruct Hh as [(now' & s0 & H0 & _ & Hf) | (_ & Hf)];
       [ rewrite Hf, (pump_gate now' s0) by (left; congruence); cbn; congruence
       | rewrite Hf; exact Hst ]).
Qed.

(** While the session is in [sending_state], only the completion of the
    write can lead to a new write. *)
Lemma gated_handler_writes e s :
  state_ s = sending_state ->
  writes (effects (handler relay_ e s)) = [] \/
  exists now ec, e = ev_write now ec.
Proof.
  intros Hs.
  destruct (handler_runs_pump relay_ e s) as [(now' & s0 & H0 & Hwr & _) | (Hwr & _)];
    [|left; exact Hwr].
  destruct e as [now ec frame | now ec | | msg | now];
    try (right; eauto; fail); left;
    rewrite Hwr, (pump_gate now' s0) by (left; congruence); reflexivity.
Qed.

(** X11. A failed write silences the session for good: the completion
    handler closes the socket and leaves the session in [sending_state] with
    no write in flight, and from then on no event starts a write or opens the
    socket again. *)
Theorem failed_write_ends_writes now ec c c1 es c2 :
  (writes_in_flight c <= 1)%nat ->
  (writes_in_flight c = 1%nat -> state_ (sess c) = sending_state) ->
  ec <> ec_success ->
  step relay_ (ev_write now ec) c = Some c1 ->
  run_events relay_ es c1 = Some c2 ->
  writes_in_flight c2 = 0%nat /\ socket_open c2 = false /\
  state_ (sess c2) = sending_state /\
  (forall e, writes (effects (handler relay_ e (sess c2))) = [] \/
             exists now' ec', e = ev_write now' ec').
Proof.
  intros Hle Hst Hec H1 H2.
  assert (Hdead : write_dead c1).
  { unfold step in H1.
    destruct (0 <? writes_in_flight c)%nat eqn:Hpos; [|discriminate].
    apply Nat.ltb_lt in Hpos. injection H1 as <-.
    assert (Hone : writes_in_flight c = 1%nat) by lia.
    unfold write_dead. rewrite run_writes, run_sess.
    cbn [complete_write writes_in_flight sess handler].
    destruct ec; [contradiction | |];
      (split; [cbn; lia|]; split; [|exact (Hst Hone)]);
      unfold run; cbn; reflexivity. }
  clear H1 Hle Hst Hec.
  assert (Hdead2 : write_dead c2).
  { revert c1 Hdead H2. induction es as [|e es IH]; intros c1 Hdead H2;
      cbn [run_events] in H2.
    - injection H2 as <-. exact Hdead.
    - destruct (step relay_ e c1) as [c'|] eqn:E; [|discriminate].
      exact (IH c' (write_dead_step e c1 c' Hdead E) H2). }
  destruct Hdead2 as (Hw & Hc & Hs). repeat split; try assumption.
  intros e. apply gated_handler_writes. exact Hs.
Qed.

Lemma pump_flags now s :
  recv_remote_hello_ (final (maybe_send_next_message now s)) = recv_remote_hello_ s /\
  sent_remote_hello_ (final (maybe_send_next_message now s)) = sent_remote_hello_ s.
Proof.
  rewrite pump_spec.
  destruct (is_sending (state_ s)); [split; reflexivity|].
  destruct (nonempty (out_buffer_ s)); [split; reflexivity|].
  destruct (negb (recv_remote_hello_ s) || negb (sent_remote_hello_ s));
    [split; reflexivity|].
  destruct (negb (ping_code (last_recv_ping_ s) =? sha256_zero)); [split; reflexivity|].
  destruct (negb (now - ping_sent (last_sent_ping_ s) <? three_seconds)).
  - destruct (ping_code (last_sent_ping_ s) =? sha256_zero); split; reflexivity.
  - destruct (msg_buffer_ s); split; reflexivity.
Qed.

Lemma pump_without_hellos now s :
  recv_remote_hello_ s = false \/ sent_remote_hello_ s = false ->
  effects (maybe_send_next_message now s) = [].
Proof.
  intros H. rewrite pump_spec.
  destruct (is_sending (state_ s)); [reflexivity|].
  destruct (nonempty (out_buffer_ s)); [reflexivity|].
  destruct H as [-> | ->]; [reflexivity|].
  rewrite orb_true_r. reflexivity.
Qed.

(** What the three dispatched handlers leave alone: the hello flags; they
    start no write. *)
Lemma dispatched_handler_flags now msg s :
  recv_remote_hello_ (final (on_message relay_ now msg s)) = recv_remote_hello_ s /\
  sent_remote_hello_ (final (on_message relay_ now msg s)) = sent_remote_hello_ s /\
  (recv_remote_hello_ s = false \/ sent_remote_hello_ s = false ->
   writes (effects (on_message relay_ now msg s)) = []).
Proof.
  destruct msg as [hi | p | p | cs | b | ia]; cbn [on_message];
    try (repeat split; reflexivity);
    rewrite final_bind, effects_bind, writes_app.
  - rewrite on_hello_spec.
    destruct (negb (hello_chain_id hi =? get_chain_id)) eqn:E1;
      [|destruct (hello_id hi =? id_ relay_) eqn:E2];
      cbn [final result effects fst snd];
      match goal with
      | |- context [maybe_send_next_message now ?s0] =>
          destruct (pump_flags now s0) as [-> ->];
          split; [reflexivity|]; split; [reflexivity|];
          intros H; rewrite (pump_without_hellos now s0) by exact H; reflexivity
      end.
  - rewrite on_ping_spec. cbn [final result effects fst snd].
    match goal with
    | |- context [maybe_send_next_message now ?s0] =>
        destruct (pump_flags now s0) as [-> ->];
        split; [reflexivity|]; split; [reflexivity|];
        intros H; rewrite (pump_without_hellos now s0) by exact H; reflexivity
    end.
  - rewrite on_pong_spec.
    destruct (pong_code p =? ping_code (last_sent_ping_ s));
      cbn [final result effects fst snd];
      match goal with
      | |- context [maybe_send_next_message now ?s0] =>
          destruct (pump_flags now s0) as [-> ->];
          split; [reflexivity|]; split; [reflexivity|];
          intros H; rewrite (pump_without_hellos now s0) by exact H; reflexivity
      end.
Qed.

(** No handler sets or clears a hello flag, and with a flag unset none
    starts a write. *)
Lemma handler_flags e s :
  recv_remote_hello_ (final (handler relay_ e s)) = recv_remote_hello_ s /\
  sent_remote_hello_ (final (handler relay_ e s)) = sent_remote_hello_ s /\
  (recv_remote_hello_ s = false \/ sent_remote_hello_ s = false ->
   writes (effects (handler relay_ e s)) = []).
Proof.
  destruct e as [now ec frame | now ec | | msg | now]; cbn [handler].
  - rewrite final_bind, effects_bind, writes_app.
    destruct ec; try (repeat split; reflexivity).
    cbn [modify effects final result fst snd app writes omap].
    rewrite on_read_unfold.
    set (s1 := set_in_buffer_ (in_buffer_ s ++ frame) s).
    change (recv_remote_hello_ s) with (recv_remote_hello_ s1).
    change (sent_remote_hello_ s) with (sent_remote_hello_ s1).
    destruct (unpack_message (in_buffer_ s1)) as [[msg n]|];
      [|repeat split; reflexivity].
    cbv zeta. cbn [effects final fst snd recv_remote_hello_ sent_remote_hello_
                     set_in_buffer_].
    rewrite writes_app, app_nil_r.
    exact (dispatched_handler_flags now msg s1).
  - destruct ec; try (repeat split; reflexivity).
    rewrite on_write_unfold.
    set (s1 := set_out_buffer_ [] (set_state_ idle_state s)).
    change (recv_remote_hello_ s) with (recv_remote_hello_ s1).
    change (sent_remote_hello_ s) with (sent_remote_hello_ s1).
    destruct (pump_flags now s1) as [-> ->]. repeat split.
    intros H. rewrite (pump_without_hellos now s1) by exact H. reflexivity.
  - repeat split; reflexivity.
  - repeat split; reflexivity.
  - destruct (pump_flags now s) as [-> ->]. repeat split.
    intros H. rewrite (pump_without_hellos now s) by exact H. reflexivity.
Qed.

Lemma step_sess e c c' :
  step relay_ e c = Some c' -> sess c' = final (handler relay_ e (sess c)).
Proof.
  unfold step. destruct e as [now ec frame | now ec | | msg | now]; intros H.
  - destruct (0 <? reads_in_flight c)%nat; [|discriminate].
    injection H as <-. rewrite run_sess. reflexivity.
  - destruct (0 <? writes_in_flight c)%nat; [|discriminate].
    injection H as <-. rewrite run_sess. reflexivity.
  - injection H as <-. rewrite run_sess. reflexivity.
  - injection H as <-. rewrite run_sess. reflexivity.
  - injection H as <-. rewrite run_sess. reflexivity.
Qed.

Lemma run_events_flags es : forall c c',
  run_events relay_ es c = Some c' ->
  recv_remote_hello_ (sess c') = recv_remote_hello_ (sess c) /\
  sent_remote_hello_ (sess c') = sent_remote_hello_ (sess c).
Proof.
  induction es as [|e es IH]; intros c c' H; cbn [run_events] in H.
  - injection H as <-. split; reflexivity.
  - destruct (step relay_ e c) as [c1|] eqn:E; [|discriminate].
    destruct (IH c1 c' H) as [-> ->]. rewrite (step_sess e c c1 E).
    destruct (handler_flags e (sess c)) as (-> & -> & _). split; reflexivity.
Qed.

(** X12. No member function of the session sets or clears
    [recv_remote_hello_] or [sent_remote_hello_]: whatever happens on a
    started session, both flags are as they were at construction. So a
    session constructed with one of them unset writes its hello and then
    nothing else: no pong, no ping, no queued message. *)
Theorem hello_flags_never_change c es c' :
  run_events relay_ es (run (start relay_) c) = Some c' ->
  recv_remote_hello_ (sess c') = recv_remote_hello_ (sess c) /\
  sent_remote_hello_ (sess c') = sent_remote_hello_ (sess c) /\
  (recv_remote_hello_ (sess c) = false \/ sent_remote_hello_ (sess c) = false ->
   forall e, writes (effects (handler relay_ e (sess c'))) = []).
Proof.
  intros H. destruct (run_events_flags es _ _ H) as [Hr Hs].
  rewrite run_sess, start_spec in Hr, Hs. cbn in Hr, Hs.
  split; [exact Hr|]. split; [exact Hs|].
  intros Hoff e. apply handler_flags. rewrite Hr, Hs. exact Hoff.
Qed.

Lemma pump_keeps_ping_in_flight now s :
  ping_code (last_sent_ping_ s) <> sha256_zero ->
  last_sent_ping_ (final (maybe_send_next_message now s)) = last_sent_ping_ s.
Proof.
  intros H. apply Z.eqb_neq in H. rewrite pump_spec.
  destruct (is_sending (state_ s)); [reflexivity|].
  destruct (nonempty (out_buffer_ s)); [reflexivity|].
  destruct (negb (recv_remote_hello_ s) || negb (sent_remote_hello_ s)); [reflexivity|].
  destruct (negb (ping_code (last_recv_ping_ s) =? sha256_zero)); [reflexivity|].
  destruct (negb (now - ping_sent (last_sent_ping_ s) <? three_seconds)).
  - rewrite H. reflexivity.
  - destruct (msg_buffer_ s); reflexivity.
Qed.

Lemma on_message_keeps_ping_in_flight now msg s :
  ping_code (last_sent_ping_ s) <> sha256_zero ->
  last_sent_ping_ (final (on_message relay_ now msg s)) = last_sent_ping_ s \/
  exists p, msg = msg_pong p /\ pong_code p = ping_code (last_sent_ping_ s).
Proof.
  intros H.
  destruct msg as [hi | p | p | cs | b | ia]; cbn [on_message];
    try (left; reflexivity).
  - left. rewrite final_bind, on_hello_spec.
    destruct (negb (hello_chain_id hi =? get_chain_id));
      [|destruct (hello_id hi =? id_ relay_)];
      cbn [final result fst snd]; rewrite pump_keeps_ping_in_flight; auto.
  - left. rewrite final_bind, on_ping_spec. cbn [final result fst snd].
    rewrite pump_keeps_ping_in_flight; auto.
  - destruct (Z.eqb_spec (pong_code p) (ping_code (last_sent_ping_ s))) as [He|Hne].
    + right. eauto.
    + left. rewrite final_bind, on_pong_spec.
      apply Z.eqb_neq in Hne. rewrite Hne. cbn [final result fst snd].
      rewrite pump_keeps_ping_in_flight; auto.
Qed.

(** X13. One ping in flight at a time: while the code of the last ping
    sent is not the zero digest, no handler stamps a new ping or touches the
    one in flight, except the completion of a read whose frame decodes to a
    pong echoing that code. *)
Theorem ping_in_flight_until_its_pong e s :
  ping_code (last_sent_ping_ s) <> sha256_zero ->
  last_sent_ping_ (final (handler relay_ e s)) = last_sent_ping_ s \/
  exists now frame p n,
    e = ev_read now ec_success frame /\
    unpack_message (in_buffer_ s ++ frame) = Some (msg_pong p, n) /\
    pong_code p = ping_code (last_sent_ping_ s).
Proof.
  intros H.
  destruct e as [now ec frame | now ec | | msg | now]; cbn [handler].
  - rewrite final_bind.
    destruct ec; try (left; reflexivity).
    cbn [modify final result fst snd]. rewrite on_read_unfold.
    set (s1 := set_in_buffer_ (in_buffer_ s ++ frame) s).
    destruct (unpack_message (in_buffer_ s1)) as [[msg n]|] eqn:E;
      [|left; reflexivity].
    cbv zeta. cbn [final fst snd last_sent_ping_ set_in_buffer_].
    destruct (on_message_keeps_ping_in_flight now msg s1 H) as [Hk | (p & -> & Hp)].
    + left. exact Hk.
    + right. exists now, frame, p, n. repeat split; assumption.
  - left. destruct ec; try reflexivity.
    rewrite on_write_unfold. rewrite pump_keeps_ping_in_flight; auto.
  - left. reflexivity.
  - left. reflexivity.
  - left. apply pump_keeps_ping_in_flight. exact H.
Qed.

End LifeProperties.

(** A started session whose hello write fails, then a queued message and
    two runs of the pump. *)
Lemma failed_write_ends_writes_witness :
  let c := run (start (CD := toy_codec) toy_relay) (blank_conn 1 true) in
  let es := [ev_buffer_send queued_hello; ev_pump 2000; ev_pump 5000000] in
  (writes_in_flight c <= 1)%nat /\
  ec_failure <> ec_success /\
  exists c1 c2,
    step (CD := toy_codec) toy_relay (ev_write 1000 ec_failure) c = Some c1 /\
    run_events (CD := toy_codec) toy_relay es c1 = Some c2 /\
    writes_in_flight c2 = 0%nat /\ socket_open c2 = false.
Proof.
  intros c es.
  assert (H1 : (writes_in_flight c <= 1)%nat) by (cbn; lia).
  assert (H2 : ec_failure <> ec_success) by discriminate.
  split; [exact H1|]. split; [exact H2|].
  eexists. eexists. split; [reflexivity|]. split; [reflexivity|].
  destruct (failed_write_ends_writes (CD := toy_codec) toy_relay 1000 ec_failure
              c _ es _ H1 (fun _ => eq_refl) H2 eq_refl eq_refl) as (Ha & Hb & _).
  split; [exact Ha | exact Hb].
Defined.

(** A session constructed with its hello flags unset, a message queued and
    its hello written: the next completion writes nothing. *)
Lemma hello_flags_never_change_witness :
  let c := blank_conn 1 false in
  let es := [ev_buffer_send queued_hello; ev_write 1000 ec_success] in
  exists c',
    run_events (CD := toy_codec) toy_relay es
      (run (start (CD := toy_codec) toy_relay) c) = Some c' /\
    recv_remote_hello_ (sess c') = false /\
    writes (effects (handler (CD := toy_codec) toy_relay (ev_pump 2000) (sess c'))) = [].
Proof.
  intros c es. eexists. split; [reflexivity|].
  destruct (hello_flags_never_change (CD := toy_codec) toy_relay c es _ eq_refl)
    as (Hr & _ & Hw).
  split; [exact Hr|]. apply Hw. left. reflexivity.
Defined.

(** A session awaiting the pong of its ping with code 5: a run of the pump
    four seconds later leaves the ping in flight as it is. *)
Lemma ping_in_flight_until_its_pong_witness :
  let s := set_last_sent_ping_ unanswered_ping (blank_session 1 true) in
  ping_code (last_sent_ping_ s) <> sha256_zero /\
  last_sent_ping_ (final (handler (CD := toy_codec) toy_relay (ev_pump 4000000) s))
    = unanswered_ping.
Proof.
  intros s.
  assert (H : ping_code (last_sent_ping_ s) <> sha256_zero) by discriminate.
  split; [exact H|].
  destruct (ping_in_flight_until_its_pong (CD := toy_codec) toy_relay
              (ev_pump 4000000) s H) as [Hk | (now & frame & p & n & He & _)].
  - exact Hk.
  - discriminate He.
Defined.

(** ** The handlers that translate messages into transactions *)

Section TranslationProperties.
Context `{CD : Codec}.
Variable relay_ : relay.

(** X15. The handler of a header batch leaves the session as it was and
    posts at most one transaction. It pushes the [addblocks] transaction
    with the packed batch exactly when the local head exists and the first
    block number of the batch is the head's number plus one, in 32-bit
    unsigned arithmetic. The first block number is read from the first id of
    the merkle path when the path is not empty, whatever the number of the
    header state, and from the header state only when the path is empty. *)
Theorem batch_is_linked_by_its_first_number b s :
  let r := on_block_header_with_merkle_path relay_ b s in
  final r = s /\
  (effects r = [app_post (task_push_transaction [addblocks_action b])] \/
   effects r = []) /\
  (forall id rest, merkle_path b = id :: rest ->
     (effects r = [app_post (task_push_transaction [addblocks_action b])] <->
      exists h, get_head relay_ = Some h /\
                num_from_id id = wrap32 (head_block_num h + 1))) /\
  (merkle_path b = [] ->
     (effects r = [app_post (task_push_transaction [addblocks_action b])] <->
      exists h, get_head relay_ = Some h /\
                block_num (bhmp_block_header b) = wrap32 (head_block_num h + 1))).
Proof.
  cbv zeta. rewrite on_block_header_with_merkle_path_spec.
  assert (Hiff :
    (match get_head relay_ with
     | Some h =>
         if first_num b =? wrap32 (head_block_num h + 1)
         then (tt, s, [app_post (task_push_transaction [addblocks_action b])])
         else (tt, s, [])
     | None => (tt, s, [])
     end).2 = [app_post (task_push_transaction [addblocks_action b])] <->
    exists h, get_head relay_ = Some h /\
              first_num b = wrap32 (head_block_num h + 1)).
  { destruct (get_head relay_) as [h|].
    - destruct (Z.eqb_spec (first_num b) (wrap32 (head_block_num h + 1))) as [He|Hne];
        cbn; split; intros H; eauto; try discriminate.
      destruct H as (h' & Hh & Hf). congruence.
    - cbn. split; intros H; [discriminate|].
      destruct H as (h' & Hh & _). discriminate. }
  unfold effects in *. split; [|split; [|split]].
  - destruct (get_head relay_) as [h|]; [|reflexivity].
    destruct (first_num b =? wrap32 (head_block_num h + 1)); reflexivity.
  - destruct (get_head relay_) as [h|]; [|right; reflexivity].
    destruct (first_num b =? wrap32 (head_block_num h + 1)); [left | right]; reflexivity.
  - intros id rest Hp. unfold first_num in Hiff |- *. rewrite Hp in Hiff |- *.
    exact Hiff.
  - intros Hp. unfold first_num in Hiff |- *. rewrite Hp in Hiff |- *. exact Hiff.
Qed.

End TranslationProperties.

(** A batch whose header state says block 101 but whose merkle path starts
    with an id of block 7: on the head of block 100 it is not pushed. *)
Lemma batch_is_linked_by_its_first_number_witness :
  merkle_path stale_path_batch = [Z.shiftl 7 224] /\
  block_num (HostTypes := toy_types) (bhmp_block_header stale_path_batch)
    = wrap32 (100 + 1) /\
  effects (on_block_header_with_merkle_path (CD := toy_codec) toy_relay
             stale_path_batch (blank_session 1 true)) = [].
Proof.
  split; [reflexivity|]. split; [reflexivity|].
  destruct (batch_is_linked_by_its_first_number (CD := toy_codec) toy_relay
              stale_path_batch (blank_session 1 true)) as (_ & [Hp | Hn] & Hid & _).
  - apply (Hid (Z.shiftl 7 224) [] eq_refl) in Hp.
    destruct Hp as (h & Hh & Hf). injection Hh as <-. discriminate Hf.
  - exact Hn.
Defined.

(** One peer action with its action and its receipt. *)
Lemma on_icp_actions_pushes_witness :
  let res := on_icp_actions (CD := toy_codec) aligned (blank_session 1 true) in
  (length (peer_actions aligned) <= length (actions aligned))%nat /\
  (length (peer_actions aligned) <= length (action_receipts aligned))%nat /\
  result res = completed /\
  pushed (effects res) =
    [[ {| act_name := ACTION_ADDBLOCK; act_data := [Byte.x4d] |} ];
     [ {| act_name := "onpacket"; act_data := [Byte.x01; Byte.x02] |} ]].
Proof.
  intros res.
  assert (H1 : (length (peer_actions aligned) <= length (actions aligned))%nat)
    by (cbn; lia).
  assert (H2 : (length (peer_actions aligned) <= length (action_receipts aligned))%nat)
    by (cbn; lia).
  split; [exact H1|]. split; [exact H2|].
  destruct (on_icp_actions_pushes (CD := toy_codec) aligned (blank_session 1 true)
              H1 H2) as (Hc & _).
  split; [exact Hc | reflexivity].
Defined.

(** ** The out-buffer and the queue under every event *)

Section BufferProperties.
Context `{CD : Codec}.
Variable relay_ : relay.

(** What one run of the pump does to the queue, the state and the
    out-buffer. *)
Lemma pump_buffers now s :
  let r := maybe_send_next_message now s in
  (msg_buffer_ (final r) = msg_buffer_ s \/
   exists m rest, msg_buffer_ s = m :: rest /\ msg_buffer_ (final r) = rest /\
                  effects r = [async_write (pack_message m)]) /\
  (final r = s \/ state_ (final r) = sending_state).
Proof.
  cbv zeta. rewrite pump_spec.
  destruct (is_sending (state_ s)); [split; left; reflexivity|].
  destruct (nonempty (out_buffer_ s)); [split; left; reflexivity|].
  destruct (negb (recv_remote_hello_ s) || negb (sent_remote_hello_ s));
    [split; left; reflexivity|].
  destruct (negb (ping_code (last_recv_ping_ s) =? sha256_zero));
    [split; [left | right]; reflexivity|].
  destruct (negb (now - ping_sent (last_sent_ping_ s) <? three_seconds)).
  - destruct (ping_code (last_sent_ping_ s) =? sha256_zero);
      [split; [left | right]; reflexivity | split; left; reflexivity].
  - destruct (msg_buffer_ s) as [|m rest] eqn:E;
      [split; left; [exact E | reflexivity]|].
    split; [right | right; reflexivity].
    exists m, rest. repeat split.
Qed.

(** The three dispatched handlers touch neither the queue, nor the state,
    nor the out-buffer, and start no write. *)
Lemma dispatched_handler_buffers now msg s :
  exists s0,
    msg_buffer_ s0 = msg_buffer_ s /\ state_ s0 = state_ s /\
    out_buffer_ s0 = out_buffer_ s /\
    ((has_case msg = true /\
      final (on_message relay_ now msg s) = final (maybe_send_next_message now s0) /\
      writes (effects (on_message relay_ now msg s))
        = writes (effects (maybe_send_next_message now s0))) \/
     (has_case msg = false /\
      final (on_message relay_ now msg s) = s0 /\
      writes (effects (on_message relay_ now msg s)) = [])).
Proof.
  destruct msg as [hi | p | p | cs | b | ia]; cbn [on_message has_case];
    try (exists s; repeat split; right; repeat split; fail).
  - exists (final (on_hello relay_ hi s)).
    rewrite final_bind, effects_bind, writes_app, on_hello_spec.
    destruct (negb (hello_chain_id hi =? get_chain_id));
      [|destruct (hello_id hi =? id_ relay_)];
      repeat split; left; repeat split.
  - exists (final (on_ping now p s)).
    rewrite final_bind, effects_bind, writes_app, on_ping_spec.
    repeat split; left; repeat split.
  - exists (final (on_pong p s)).
    rewrite final_bind, effects_bind, writes_app, on_pong_spec.
    destruct (pong_code p =? ping_code (last_sent_ping_ s));
      repeat split; left; repeat split.
Qed.

(** X16. No queued message is lost: whatever the event, the queue is left
    as it was, or loses its oldest message while exactly that message is
    written, or, when the relay queues a message, gains it at the back. *)
Theorem queue_only_shrinks_by_writing e s :
  let r := handler relay_ e s in
  msg_buffer_ (final r) = msg_buffer_ s \/
  (exists m rest, msg_buffer_ s = m :: rest /\ msg_buffer_ (final r) = rest /\
                  writes (effects r) = [pack_message m]) \/
  (exists m, e = ev_buffer_send m /\ msg_buffer_ (final r) = msg_buffer_ s ++ [m]).
Proof.
  cbv zeta.
  assert (Hpump : forall now s0 (r : unit * session * list effect),
            msg_buffer_ s0 = msg_buffer_ s ->
            msg_buffer_ (final r) = msg_buffer_ (final (maybe_send_next_message now s0)) ->
            writes (effects r) = writes (effects (maybe_send_next_message now s0)) ->
            msg_buffer_ (final r) = msg_buffer_ s \/
            (exists m rest, msg_buffer_ s = m :: rest /\
                            msg_buffer_ (final r) = rest /\
                            writes (effects r) = [pack_message m])).
  { intros now s0 r H0 Hf Hw.
    destruct (pump_buffers now s0) as [[Hq | (m & rest & Hq & Hq' & He)] _].
    - left. congruence.
    - right. exists m, rest. rewrite Hf, Hw, He, <- H0. repeat split; assumption. }
  destruct e as [now ec frame | now ec | | msg | now]; cbn [handler].
  - rewrite final_bind, effects_bind, writes_app.
    destruct ec; try (left; reflexivity).
    cbn [modify effects final result fst snd app writes omap].
    rewrite on_read_unfold.
    set (s1 := set_in_buffer_ (in_buffer_ s ++ frame) s).
    destruct (unpack_message (in_buffer_ s1)) as [[msg n]|]; [|left; reflexivity].
    cbv zeta. cbn [effects final fst snd msg_buffer_ set_in_buffer_].
    rewrite writes_app, app_nil_r.
    destruct (dispatched_handler_buffers now msg s1)
      as (s0 & Hq & _ & _ & [(_ & Hf & Hw) | (_ & Hf & Hw)]).
    + destruct (Hpump now s0 (on_message relay_ now msg s1) Hq
                  ltac:(rewrite Hf; reflexivity) Hw) as [H | H]; auto.
    + left. rewrite Hf. exact Hq.
  - destruct ec; try (left; reflexivity).
    rewrite on_write_unfold.
    destruct (Hpump now (set_out_buffer_ [] (set_state_ idle_state s))
                (maybe_send_next_message now
                   (set_out_buffer_ [] (set_state_ idle_state s)))
                eq_refl eq_refl eq_refl) as [H | H]; auto.
  - left. reflexivity.
  - right. right. exists msg. split; reflexivity.
  - destruct (Hpump now s (maybe_send_next_message now s) eq_refl eq_refl eq_refl)
      as [H | H]; auto.
Qed.

(** Idle with an empty out-buffer, or not idle. *)
Lemma handler_out_buffer e s :
  (state_ s = idle_state -> out_buffer_ s = []) ->
  state_ (final (handler relay_ e s)) = idle_state ->
  out_buffer_ (final (handler relay_ e s)) = [].
Proof.
  intros Hinv.
  assert (Hpump : forall now s0,
            (state_ s0 = idle_state -> out_buffer_ s0 = []) ->
            state_ (final (maybe_send_next_message now s0)) = idle_state ->
            out_buffer_ (final (maybe_send_next_message now s0)) = []).
  { intros now s0 H0 Hi.
    destruct (pump_buffers now s0) as [_ [Hf | Hs]]; [|congruence].
    rewrite Hf in *. auto. }
  destruct e as [now ec frame | now ec | | msg | now]; cbn [handler].
  - rewrite final_bind.
    destruct ec; try exact Hinv.
    cbn [modify final result fst snd]. rewrite on_read_unfold.
    set (s1 := set_in_buffer_ (in_buffer_ s ++ frame) s).
    destruct (unpack_message (in_buffer_ s1)) as [[msg n]|]; [|exact Hinv].
    cbv zeta. cbn [final fst snd state_ out_buffer_ set_in_buffer_].
    destruct (dispatched_handler_buffers now msg s1)
      as (s0 & _ & Hst & Hout & [(_ & Hf & _) | (_ & Hf & _)]); rewrite Hf.
    + apply Hpump. rewrite Hst, Hout. exact Hinv.
    + rewrite Hst, Hout. exact Hinv.
  - destruct ec; try exact Hinv.
    rewrite on_write_unfold. apply Hpump. reflexivity.
  - exact Hinv.
  - exact Hinv.
  - apply Hpump. exact Hinv.
Qed.

(** X17. From its start on, a session that is idle has an empty
    out-buffer: the buffer is filled only when a write starts and emptied
    when the write completes. *)
Theorem idle_session_has_empty_out_buffer c es c' :
  run_events relay_ es (run (start relay_) c) = Some c' ->
  state_ (sess c') = idle_state -> out_buffer_ (sess c') = [].
Proof.
  intros H.
  assert (H0 : state_ (sess (run (start relay_) c)) = idle_state ->
               out_buffer_ (sess (run (start relay_) c)) = []).
  { rewrite run_sess, start_spec. cbn. discriminate. }
  revert H H0. generalize (run (start relay_) c). clear c.
  induction es as [|e es IH]; intros c H H0; cbn [run_events] in H.
  - injection H as <-. exact H0.
  - destruct (step relay_ e c) as [c1|] eqn:E; [|discriminate].
    apply (IH c1 H). rewrite (step_sess relay_ e c c1 E).
    apply handler_out_buffer. exact H0.
Qed.

End BufferProperties.

(** The hello of a started session is written, a message is queued and the
    pump runs: the session is idle in between, with an empty out-buffer. *)
Lemma idle_session_has_empty_out_buffer_witness :
  let es := [ev_write 1000 ec_success; ev_read 2000 ec_success [Byte.x02; Byte.x00]] in
  exists c',
    run_events (CD := toy_codec) toy_relay es
      (run (start (CD := toy_codec) toy_relay) (blank_conn 1 false)) = Some c' /\
    state_ (sess c') = idle_state /\ out_buffer_ (sess c') = [].
Proof.
  intros es. eexists. split; [reflexivity|]. split; [reflexivity|].
  apply (idle_session_has_empty_out_buffer (CD := toy_codec) toy_relay
           (blank_conn 1 false) es _ eq_refl). reflexivity.
Defined.
